(** * lex.ts: rule compilation and the scan engine of the atto lexer

    A shallow embedding of [src/lex.ts].

    - JavaScript strings are Rocq strings (sequences of 8-bit characters);
      among these the line terminators are the line feed and the carriage
      return.
    - A RegExp is its source text, its flags and a pattern with the
      backtracking semantics of ECMAScript; [exec] is the sticky match at
      [lastIndex].
    - The objects [specs] and [rules] are association lists, in the order
      [Object.entries] enumerates them.  A lookup [rules[name]] that finds
      no group falls back on the members every JavaScript object inherits
      ([constructor], [toString], [__proto__], ...), which are no arrays.
      No group is taken to be named [__proto__]: an assignment to that
      name sets no property.
    - Exceptions are the [Throw] case of a result type.
    - The generator [lex] is an explicit state, and [next] runs it up to its
      next [yield].  The [while] loop is given a number of turns, [fuel]; a
      call that has not returned after [fuel] turns is [Running].
    - [createPosQuery] of [./pos.ts] is a parameter, and actions are
      functions from tokens to optional tokens.
    - The calls of [dbg] write to the console only and are left out; the
      variable [dbg] of the lexer's closure is the field [dbg] of [Lexer]. *)

From Stdlib Require Import String Ascii List Arith Bool Lia.
Import ListNotations.
Open Scope string_scope.
Open Scope list_scope.
Open Scope nat_scope.

(** ** Strings *)

Definition chr (n : nat) : ascii := ascii_of_nat n.

(** [s[i]] as a one-character test. *)
Definition charAt (s : string) (i : nat) : option ascii := String.get i s.

(** [s.substring(from, to)] for [from <= to]. *)
Definition slice (s : string) (from to : nat) : string :=
  String.substring from (to - from) s.

Fixpoint revString (s acc : string) : string :=
  match s with
  | EmptyString => acc
  | String c s' => revString s' (String c acc)
  end.

(** [s.startsWith(prefix)] *)
Fixpoint startsWith (s prefix : string) {struct prefix} : bool :=
  match prefix with
  | EmptyString => true
  | String a prefix' =>
      match s with
      | EmptyString => false
      | String b s' => Ascii.eqb a b && startsWith s' prefix'
      end
  end.

(** [s.endsWith(suffix)], read from the end of both strings. *)
Definition endsWith (s suffix : string) : bool :=
  startsWith (revString s "") (revString suffix "").

Definition isEmptyString (s : string) : bool :=
  match s with EmptyString => true | _ => false end.

(** The strings of [l] put together, in order. *)
Fixpoint join (l : list string) : string :=
  match l with
  | [] => ""
  | x :: l' => x ++ join l'
  end.

Definition inChars (c : ascii) (set : string) : bool :=
  existsb (Ascii.eqb c) (list_ascii_of_string set).

(** ** Exceptions *)

Inductive Error : Type :=
| LexError (message : string)      (* compile errors like push group not found *)
| LexEndedError                    (* thrown after the FINAL token *)
| InternalError (message : string) (* bugs *)
| SyntaxError                      (* thrown by the RegExp constructor *)
| TypeError.                       (* thrown by the engine, at a spread of
                                      what is not iterable *)

Inductive Result (A : Type) : Type :=
| Ok (a : A)
| Throw (e : Error).
Arguments Ok {A} a.
Arguments Throw {A} e.

Definition bind {A B : Type} (r : Result A) (k : A -> Result B) : Result B :=
  match r with
  | Ok a => k a
  | Throw e => Throw e
  end.

Notation "'do' x <- r ; k" := (bind r (fun x => k))
  (at level 10, x name, r at level 100, k at level 200).

Fixpoint mapM {A B : Type} (f : A -> Result B) (l : list A) : Result (list B) :=
  match l with
  | [] => Ok []
  | a :: l' => do b <- f a; do bs <- mapM f l'; Ok (b :: bs)
  end.

(** ** Regular expressions

    The patterns of the regular expressions the lexer meets, with the
    backtracking semantics of ECMAScript: [ends r s i] lists, in the order the
    matcher tries them, the indices at which a match of [r] starting at index
    [i] of [s] can end.  The first one is the match [exec] reports. *)

Inductive Regex : Type :=
| RxEmpty                     (* (?:)  *)
| RxChar (c : ascii)          (* a literal character *)
| RxClass (p : ascii -> bool) (* a character class, [.] and [\d] included *)
| RxSeq (r1 r2 : Regex)       (* r1r2  *)
| RxAlt (r1 r2 : Regex)       (* r1|r2 *)
| RxStar (r : Regex).         (* r*, greedy *)

(** r+ *)
Definition RxPlus (r : Regex) : Regex := RxSeq r (RxStar r).

(** The greedy loop of [r*]: an iteration that consumed nothing is given up,
    as ECMAScript's RepeatMatcher does; [fuel] bounds the iterations. *)
Fixpoint starEnds (step : nat -> list nat) (fuel i : nat) : list nat :=
  match fuel with
  | 0 => [i]
  | S fuel' =>
      flat_map (fun e => if e =? i then [] else starEnds step fuel' e) (step i)
        ++ [i]
  end.

Fixpoint ends (r : Regex) (s : string) (i : nat) : list nat :=
  match r with
  | RxEmpty => [i]
  | RxChar c =>
      match charAt s i with
      | Some c' => if Ascii.eqb c c' then [S i] else []
      | None => []
      end
  | RxClass p =>
      match charAt s i with
      | Some c' => if p c' then [S i] else []
      | None => []
      end
  | RxSeq r1 r2 => flat_map (ends r2 s) (ends r1 s i)
  | RxAlt r1 r2 => ends r1 s i ++ ends r2 s i
  | RxStar r1 => starEnds (ends r1 s) (S (String.length s - i)) i
  end.

(** A RegExp object: its source text, its flags and its compiled pattern.
    [lastIndex] is written before and read after every [exec] of the scan
    loop, so it is passed to [exec] and returned by it. *)
Record RegExp : Type := {
  source : string;
  hasIndices : bool;   (* d *)
  global : bool;       (* g *)
  ignoreCase : bool;   (* i *)
  multiline : bool;    (* m *)
  dotAll : bool;       (* s *)
  unicode : bool;      (* u *)
  unicodeSets : bool;  (* v *)
  sticky : bool;       (* y *)
  pattern : Regex
}.

Definition flag (b : bool) (c : string) : string := if b then c else "".

(** [rx.flags]: the set flags in the order "dgimsuvy". *)
Definition flags (rx : RegExp) : string :=
  flag (hasIndices rx) "d" ++ flag (global rx) "g" ++ flag (ignoreCase rx) "i"
  ++ flag (multiline rx) "m" ++ flag (dotAll rx) "s" ++ flag (unicode rx) "u"
  ++ flag (unicodeSets rx) "v" ++ flag (sticky rx) "y".

(** [rx.toString()] *)
Definition toString (rx : RegExp) : string :=
  "/" ++ source rx ++ "/" ++ flags rx.

(** A RegExp with the flags "vy". *)
Definition regexVY (src : string) (p : Regex) : RegExp :=
  {| source := src; hasIndices := false; global := false; ignoreCase := false;
     multiline := false; dotAll := false; unicode := false;
     unicodeSets := true; sticky := true; pattern := p |}.

(** [rx.lastIndex = lastIndex; rx.exec(s)] of a sticky RegExp: the match is
    tried at [lastIndex] only.  The result is [match[0]] and the new
    [rx.lastIndex]. *)
Definition exec (rx : RegExp) (s : string) (lastIndex : nat)
  : option (string * nat) :=
  if String.length s <? lastIndex then None
  else match ends (pattern rx) s lastIndex with
       | e :: _ => Some (slice s lastIndex e, e)
       | [] => None
       end.

(** Line terminators, which [.] does not match without the flag s. *)
Definition isLineTerminator (c : ascii) : bool :=
  Ascii.eqb c (chr 10) || Ascii.eqb c (chr 13).

Definition isDot (c : ascii) : bool := negb (isLineTerminator c).

Definition isDigit (c : ascii) : bool :=
  let n := nat_of_ascii c in (48 <=? n) && (n <=? 57).

(** ** Tokens, rules and specs *)

Record Token : Type := {
  tok_name : string;
  tok_group : string;   (* name of the rule group the token got tokenized in *)
  tok_text : string;
  tok_offset : nat;
  tok_line : nat;
  tok_column : nat
}.

(** An action takes a token and returns a token or null.  If the action
    returns null, the rule is skipped. *)
Definition Action : Type := Token -> option Token.

Record Rule : Type := {
  rule_name : string;
  rule_rx : RegExp;
  rule_action : Action;
  rule_group : string;
  rule_push : option string;  (* if non-null, push a different rule group *)
  rule_pop : bool             (* if true, return to the previous rule group *)
}.

(** The six forms of a spec, each with its optional trailing action. *)
Inductive Spec : Type :=
| StringSpec (name : string) (a : option Action)
| StringPopSpec (name : string) (a : option Action)
| StringPushSpec (name push : string) (a : option Action)
| RegExpSpec (name : string) (rx : RegExp) (a : option Action)
| RegExpPopSpec (name : string) (rx : RegExp) (a : option Action)
| RegExpPushSpec (name : string) (rx : RegExp) (push : string) (a : option Action).

(** The elements of the array a spec is. *)
Inductive SpecEl : Type :=
| ElString (s : string)
| ElRegExp (rx : RegExp)
| ElPOP
| ElAction (a : Action).

Definition optEl (a : option Action) : list SpecEl :=
  match a with
  | Some f => [ElAction f]
  | None => []
  end.

Definition elements (spec : Spec) : list SpecEl :=
  match spec with
  | StringSpec name a => ElString name :: optEl a
  | StringPopSpec name a => ElString name :: ElPOP :: optEl a
  | StringPushSpec name push a => ElString name :: ElString push :: optEl a
  | RegExpSpec name rx a => ElString name :: ElRegExp rx :: optEl a
  | RegExpPopSpec name rx a => ElString name :: ElRegExp rx :: ElPOP :: optEl a
  | RegExpPushSpec name rx push a =>
      ElString name :: ElRegExp rx :: ElString push :: optEl a
  end.

(** [spec[i]] *)
Definition at_ (spec : Spec) (i : nat) : option SpecEl :=
  nth_error (elements spec) i.

(** [spec[0]], a string in every form. *)
Definition spec0 (spec : Spec) : string :=
  match at_ spec 0 with
  | Some (ElString name) => name
  | _ => ""
  end.

(** Rule specifications, structured in named rule groups. *)
Definition Specs : Type := list (string * list Spec).

Definition isPOP (el : option SpecEl) : bool :=
  match el with
  | Some ElPOP => true
  | _ => false
  end.

Definition specPop (spec : Spec) : bool :=
  isPOP (at_ spec 1) || isPOP (at_ spec 2).

Definition specPush (spec : Spec) : option string :=
  match at_ spec 1 with
  | Some (ElString p) => Some p
  | _ => match at_ spec 2 with
         | Some (ElString p) => Some p
         | _ => None
         end
  end.

Definition identityAction : Action := fun token => Some token.

Fixpoint firstAction (els : list SpecEl) : option Action :=
  match els with
  | [] => None
  | ElAction a :: _ => Some a
  | _ :: els' => firstAction els'
  end.

Definition specAction (spec : option Spec) : Action :=
  match spec with
  | Some sp => match firstAction (elements sp) with
               | Some a => a
               | None => identityAction
               end
  | None => identityAction
  end.

(** Rule for unexpected text *)
Definition INVALID : Rule :=
  {| rule_name := "INVALID";
     rule_rx := regexVY ".+" (RxPlus (RxClass isDot));
     rule_action := specAction None;
     rule_group := "ALL";
     rule_push := None;
     rule_pop := true |}.

Definition id (group name : string) : string := name ++ " in " ++ group.

(** The characters [rxEsc] escapes: those of the class
    [[-[\]{}()*+!<=?./\\^$|#\s,]]. *)
Definition isWhiteSpace (c : ascii) : bool :=
  let n := nat_of_ascii c in
  ((9 <=? n) && (n <=? 13)) || (n =? 32) || (n =? 160).

Definition rxEscaped (c : ascii) : bool :=
  inChars c "-[]{}()*+!<=?./\^$|#," || isWhiteSpace c.

Fixpoint rxEsc (str : string) : string :=
  match str with
  | EmptyString => EmptyString
  | String c str' =>
      if rxEscaped c then String "\" (String c (rxEsc str'))
      else String c (rxEsc str')
  end.

(** The characters a pattern with the flag v may escape by a backslash
    outside a class: the syntax characters and the slash. *)
Definition isSyntaxCharacter (c : ascii) : bool := inChars c "^$\.*+?()[]{}|".

Definition identityEscape (c : ascii) : bool :=
  isSyntaxCharacter c || Ascii.eqb c "/".

Inductive Parsed : Type :=
| Pattern (r : Regex)
| InvalidEscape
| Unsupported.

Definition seqChar (c : ascii) (rest : Parsed) : Parsed :=
  match rest with
  | Pattern r => Pattern (RxSeq (RxChar c) r)
  | other => other
  end.

(** Modelled from the spec: the pattern grammar of [new RegExp(source, "vy")]
    on sources made of literal characters and backslash escapes (ECMAScript's
    IdentityEscape in unicode mode), which is what [rxEsc] produces.  A
    backslash before any other character is a syntax error there; a source
    with an unescaped syntax character is outside this fragment. *)
Fixpoint parseLiteral (src : string) : Parsed :=
  match src with
  | EmptyString => Pattern RxEmpty
  | String "\" (String c rest) =>
      if identityEscape c then seqChar c (parseLiteral rest) else InvalidEscape
  | String c rest =>
      if isSyntaxCharacter c then Unsupported else seqChar c (parseLiteral rest)
  end.

(** [new RegExp(src, "vy")].  The [source] of the empty pattern reads
    [(?:)]; the message of the SyntaxError is the engine's own and is not
    part of the model. *)
Definition newRegExpVY (src : string) : Result RegExp :=
  match parseLiteral src with
  | Pattern r => Ok (regexVY (if isEmptyString src then "(?:)" else src) r)
  | InvalidEscape => Throw SyntaxError
  | Unsupported => Throw SyntaxError
  end.

Definition toRx (rx : string) : Result RegExp := newRegExpVY (rxEsc rx).

Definition asRx (el : option SpecEl) : option RegExp :=
  match el with
  | Some (ElRegExp rx) => Some rx
  | _ => None
  end.

Definition buildRule (rule : Spec) (group : string) : Result Rule :=
  let name := spec0 rule in
  let pop := specPop rule in
  let push := specPush rule in
  let action := specAction (Some rule) in
  do rx <- match asRx (at_ rule 1) with
           | Some rx => Ok rx
           | None => toRx (spec0 rule)
           end;
  if endsWith (toString rx) "/vy" then
    Ok {| rule_name := name; rule_group := group; rule_pop := pop;
          rule_push := push; rule_action := action; rule_rx := rx |}
  else Throw (LexError ("invald regex flags for " ++ id group name)).

(** ** Escaping for diagnostics *)

(** The characters of the class [[\p{C}\p{Z}]--[" "]]: among the 8-bit
    characters the controls (0 to 31, 127 to 159), the no-break space (160)
    and the soft hyphen (173). *)
Definition isInvisible (c : ascii) : bool :=
  let n := nat_of_ascii c in
  (n <? 32) || ((127 <=? n) && (n <=? 160)) || (n =? 173).

Definition hexDigit (n : nat) : ascii :=
  if n <? 10 then chr (48 + n) else chr (87 + n).

(** [n.toString(16)] *)
Fixpoint hexDigits (fuel n : nat) : string :=
  match fuel with
  | 0 => ""
  | S fuel' =>
      if n <? 16 then String (hexDigit n) ""
      else hexDigits fuel' (n / 16) ++ String (hexDigit (n mod 16)) ""
  end.

Definition toString16 (n : nat) : string := hexDigits (S n) n.

Fixpoint repeatChar (n : nat) (pad : ascii) : string :=
  match n with
  | 0 => ""
  | S n' => String pad (repeatChar n' pad)
  end.

(** [str.padStart(n, pad)] for a pad of one character. *)
Definition padStart (str : string) (n : nat) (pad : ascii) : string :=
  repeatChar (n - String.length str) pad ++ str.

(** [esc(c)] of [strEsc], between the delimiters [c1] and [c2].  The code
    points of 8-bit characters have one or two hexadecimal digits; a code
    point beyond them has more, and [padStart] leaves those as they are. *)
Definition esc (c1 c2 : string) (c : ascii) : string :=
  c1 ++ padStart (toString16 (nat_of_ascii c)) 2 "0" ++ c2.

(** [s.replace(/[[\p{C}\p{Z}]--[" "]]/gv, esc)] *)
Fixpoint strEscWith (c1 c2 : string) (s : string) : string :=
  match s with
  | EmptyString => EmptyString
  | String c s' =>
      if isInvisible c then esc c1 c2 c ++ strEscWith c1 c2 s'
      else String c (strEscWith c1 c2 s')
  end.

(** [strEsc(s)], with the option "backslash" it has by default.  The
    delimiters of the option "guillemet" are no 8-bit characters. *)
Definition strEsc (s : string) : string := strEscWith "\u{" "}" s.

(** ** The rule table

    [rules] maps a group name to its array of rules.  The group named "ALL"
    is the array [ruleGroupAll] itself, not a copy of it: what is pushed on
    [ruleGroupAll] later is in [rules["ALL"]] too. *)

Inductive RuleGroup : Type :=
| OwnGroup (group : list Rule)
| AllGroup.

Definition Rules : Type := list (string * RuleGroup).

Record Compiled : Type := {
  rules : Rules;
  ruleGroupAll : list Rule
}.

(** [rules[name] = ruleGroup] *)
Fixpoint assign (rules : Rules) (name : string) (ruleGroup : RuleGroup) : Rules :=
  match rules with
  | [] => [(name, ruleGroup)]
  | (k, g) :: rules' =>
      if String.eqb k name then (k, ruleGroup) :: rules'
      else (k, g) :: assign rules' name ruleGroup
  end.

Fixpoint lookup (rules : Rules) (name : string) : option RuleGroup :=
  match rules with
  | [] => None
  | (k, g) :: rules' => if String.eqb k name then Some g else lookup rules' name
  end.

Definition resolve (all : list Rule) (g : RuleGroup) : list Rule :=
  match g with
  | OwnGroup group => group
  | AllGroup => all
  end.

(** The group [rules] has under [name] as a property of its own, if it has
    one. *)
Definition getRules (c : Compiled) (name : string) : option (list Rule) :=
  option_map (resolve (ruleGroupAll c)) (lookup (rules c) name).

(** The names of the members [rules], made by [{}], inherits from
    [Object.prototype]. *)
Definition inheritedNames : list string :=
  ["constructor"; "__defineGetter__"; "__defineSetter__"; "hasOwnProperty";
   "__lookupGetter__"; "__lookupSetter__"; "isPrototypeOf";
   "propertyIsEnumerable"; "toString"; "valueOf"; "__proto__";
   "toLocaleString"].

Definition inherited (name : string) : bool :=
  existsb (String.eqb name) inheritedNames.

(** What [rules[name]] evaluates to. *)
Inductive Member : Type :=
| Undefined                    (* no property of that name *)
| Array (group : list Rule)    (* a group *)
| Foreign.                     (* an inherited member: a function or, for
                                  [__proto__], an object; neither null nor
                                  iterable *)

(** [rules[name]]: a property of [rules] itself goes before an inherited
    one. *)
Definition member (c : Compiled) (name : string) : Member :=
  match getRules c name with
  | Some group => Array group
  | None => if inherited name then Foreign else Undefined
  end.

(** The first loop of [buildRules], over [Object.entries(specs)]. *)
Fixpoint buildGroups (entries : Specs) (rules : Rules) (ruleGroupAll : list Rule)
  : Result Compiled :=
  match entries with
  | [] => Ok {| rules := rules; ruleGroupAll := ruleGroupAll |}
  | (name, specGroup) :: entries' =>
      do built <- mapM (fun spec => buildRule spec name) specGroup;
      if String.eqb name "ALL"
      then buildGroups entries' (assign rules name AllGroup) (ruleGroupAll ++ built)
      else buildGroups entries' (assign rules name (OwnGroup built)) ruleGroupAll
  end.

(** check that all push strings refer an existing group *)
Fixpoint checkGroup (c : Compiled) (ruleGroup : list Rule) : Result unit :=
  match ruleGroup with
  | [] => Ok tt
  | rule :: ruleGroup' =>
      match rule_push rule with
      | None => checkGroup c ruleGroup'
      | Some push =>
          match member c push with
          | Undefined =>                       (* rules[rule.push] == null *)
              Throw (LexError ("no push '" ++ push ++ "' found for "
                               ++ id (rule_group rule) (rule_name rule)))
          | _ => checkGroup c ruleGroup'
          end
      end
  end.

Fixpoint checkGroups (c : Compiled) (groups : list (string * RuleGroup))
  : Result unit :=
  match groups with
  | [] => Ok tt
  | (_, g) :: groups' =>
      do _ <- checkGroup c (resolve (ruleGroupAll c) g);
      checkGroups c groups'
  end.

Definition buildRules (specs : Specs) : Result Compiled :=
  do built <- buildGroups specs [] [];
  let c := {| rules := rules built;
              ruleGroupAll := ruleGroupAll built ++ [INVALID] |} in
  do _ <- checkGroups c (rules c);
  Ok c.

(** ** The lexer *)

(** The compiled lexer: specs, rules, the start group and the variable [dbg]
    of its closure ([true] for [dbgEnabled], [false] for [dbgDisabled]). *)
Record Lexer : Type := {
  specs : Specs;
  compiled : Compiled;
  start : string;
  dbg : bool
}.

Definition compileLexer (specs : Specs) (opt : bool) : Result Lexer :=
  do c <- buildRules specs;
  do start <- match rules c with
              | (name, _) :: _ => Ok name
              | [] => Throw (LexError "empty spec")
              end;
  Ok {| specs := specs; compiled := c; start := start; dbg := opt |}.

(** [lexer.dbg] *)
Definition get_dbg (lexer : Lexer) : bool := dbg lexer.

(** [lexer.dbg = opt]: the setter evaluates [opt ? dbgEnabled : dbgDisabled]
    and assigns it to nothing. *)
Definition set_dbg (lexer : Lexer) (opt : bool) : Lexer :=
  let _ := if opt then true else false in lexer.

(** [dbg = opt ? dbgEnabled : dbgDisabled], the first statement of
    [tokenizerBuilder]. *)
Definition builder_dbg (lexer : Lexer) (opt : bool) : Lexer :=
  {| specs := specs lexer; compiled := compiled lexer; start := start lexer;
     dbg := if opt then true else false |}.

(** ** The scan engine *)

Section Scan.

(** [createPosQuery] of [./pos.ts], which is not part of the lexer: the line
    and the column of an offset of a text. *)
Variable createPosQuery : string -> nat -> nat * nat.

(** The rule table of the closure [lex] is defined in, and the text. *)
Variable c : Compiled.
Variable s : string.

(** [makeToken(data, text, offset)]; of [data] the fields [group] and [name]
    are kept. *)
Definition makeToken (group name text : string) (offset : nat) : Token :=
  let pos := createPosQuery s offset in
  {| tok_name := name; tok_group := group; tok_text := text;
     tok_offset := offset; tok_line := fst pos; tok_column := snd pos |}.

(** One turn of the [for] loop: what [rule] makes of the text at [offset],
    the token to yield and the new offset, or nothing when the loop goes on
    to the next rule. *)
Definition tryRule (rule : Rule) (offset : nat) : option (Token * nat) :=
  match exec (rule_rx rule) s offset with
  | None => None                                   (* !match *)
  | Some (match0, lastIndex) =>
      if isEmptyString match0 then None            (* match[0] === "" *)
      else
        match rule_action rule
                (makeToken (rule_group rule) (rule_name rule) match0 offset) with
        | None => None                             (* token === null *)
        | Some token => Some (token, lastIndex)
        end
  end.

(** The [for] loop up to its [yield]: the first rule that yields, with its
    token and the new offset. *)
Fixpoint tryRules (ruleGroup : list Rule) (offset : nat)
  : option (Rule * Token * nat) :=
  match ruleGroup with
  | [] => None
  | rule :: ruleGroup' =>
      match tryRule rule offset with
      | Some (token, lastIndex) => Some (rule, token, lastIndex)
      | None => tryRules ruleGroup' offset
      end
  end.

(** What one turn of the [while] loop comes to. *)
Inductive Turn : Type :=
| TurnYield (token : Token) (rule : Rule) (offset : nat)
| TurnBreak                  (* the stack is empty *)
| TurnThrow (e : Error)      (* assertDefined or the spread of curr failed *)
| TurnAgain.                 (* no rule yielded: offset and stack are as before *)

(** [assertDefined(value)] *)
Definition assertDefined (value : Member) : Result Member :=
  match value with
  | Undefined => Throw (InternalError "assertion failed: value not defined")
  | v => Ok v
  end.

(** [[...curr, ...ruleGroupAll]]: the spread of a value that is no array
    throws a TypeError. *)
Definition spread (curr : Member) (ruleGroupAll : list Rule)
  : Result (list Rule) :=
  match curr with
  | Array group => Ok (group ++ ruleGroupAll)
  | _ => Throw TypeError
  end.

Definition whileBody (offset : nat) (stack : list string) : Turn :=
  match stack with
  | [] => TurnBreak
  | currLexer :: _ =>
      match
        do curr <- assertDefined (member c currLexer);
        spread curr (ruleGroupAll c)
      with
      | Throw e => TurnThrow e
      | Ok ruleGroup =>
          match tryRules ruleGroup offset with
          | Some (rule, token, lastIndex) => TurnYield token rule lastIndex
          | None => TurnAgain
          end
      end
  end.

(** Where the generator is suspended. *)
Inductive Pc : Type :=
| AtLoop                  (* before the first [next()] *)
| AtYield (rule : Rule)   (* at [yield token] in the [for] loop *)
| AtFinal                 (* at the [yield] of the FINAL token *)
| Finished.

Record Generator : Type := {
  gen_offset : nat;
  gen_stack : list string;
  gen_pc : Pc
}.

(** [lex(s, stack)] *)
Definition lex (stack : list string) : Generator :=
  {| gen_offset := 0; gen_stack := stack; gen_pc := AtLoop |}.

Definition finished (g : Generator) : Generator :=
  {| gen_offset := gen_offset g; gen_stack := gen_stack g; gen_pc := Finished |}.

(** What a call of [next()] comes to. *)
Inductive Next : Type :=
| Value (token : Token) (g : Generator)
| Done (g : Generator)
| Raised (e : Error) (g : Generator)
| Running.   (* the [while] loop is still turning *)

(** The code after the [while] loop. *)
Definition finalYield (offset : nat) (stack : list string) : Next :=
  Value (makeToken "FINAL" "FINAL" "" offset)
        {| gen_offset := offset; gen_stack := stack; gen_pc := AtFinal |}.

(** The [while] loop from its test, for at most [fuel] turns. *)
Fixpoint whileLoop (fuel offset : nat) (stack : list string) : Next :=
  match fuel with
  | 0 => Running
  | S fuel' =>
      if offset <? String.length s then
        match whileBody offset stack with
        | TurnYield token rule lastIndex =>
            Value token {| gen_offset := lastIndex; gen_stack := stack;
                           gen_pc := AtYield rule |}
        | TurnBreak => finalYield offset stack
        | TurnThrow e =>
            Raised e {| gen_offset := offset; gen_stack := stack;
                        gen_pc := Finished |}
        | TurnAgain => whileLoop fuel' offset stack
        end
      else finalYield offset stack
  end.

(** [stack.shift()] when [rule.pop], then [stack.unshift(rule.push)] when
    [rule.push] is a non-empty string: the rest of the [for] loop's body after
    the [yield]. *)
Definition afterYield (rule : Rule) (stack : list string) : list string :=
  let stack1 := if rule_pop rule then tl stack else stack in
  match rule_push rule with
  | Some push => if isEmptyString push then stack1 else push :: stack1
  | None => stack1
  end.

(** [tokenGenerator.next()] *)
Definition next (fuel : nat) (g : Generator) : Next :=
  match gen_pc g with
  | AtLoop => whileLoop fuel (gen_offset g) (gen_stack g)
  | AtYield rule =>
      whileLoop fuel (gen_offset g) (afterYield rule (gen_stack g))
  | AtFinal => Done (finished g)
  | Finished => Done g
  end.

(** What a call of [nextToken()] comes to. *)
Inductive Call : Type :=
| Returns (token : Token) (g : Generator)
| Throws (e : Error) (g : Generator)
| NoReturn.

Definition nextToken (fuel : nat) (g : Generator) : Call :=
  match next fuel g with
  | Value token g' => Returns token g'
  | Done g' => Throws LexEndedError g'
  | Raised e g' => Throws e g'
  | Running => NoReturn
  end.

(** How a run of [nextToken()] calls ends. *)
Inductive Ending : Type :=
| Ended           (* LexEndedError: the generator is done *)
| Failed (e : Error)
| Hangs           (* a call did not return *)
| More.           (* the calls ran out *)

(** The tokens of at most [calls] calls of [nextToken()], up to the first
    that throws. *)
Fixpoint tokens (calls fuel : nat) (g : Generator) : list Token * Ending :=
  match calls with
  | 0 => ([], More)
  | S calls' =>
      match nextToken fuel g with
      | Returns token g' =>
          let (rest, ending) := tokens calls' fuel g' in (token :: rest, ending)
      | Throws LexEndedError _ => ([], Ended)
      | Throws e _ => ([], Failed e)
      | NoReturn => ([], Hangs)
      end
  end.

(** The scan as a whole.
    [Scanned i st ts j st']: from the offset [i] and the stack [st] the loop
    yields the tokens [ts], one per turn, and reaches the offset [j] with the
    stack [st']. *)
Inductive Scanned : nat -> list string -> list Token -> nat -> list string -> Prop :=
| Scanned_done (i : nat) (st : list string) : Scanned i st [] i st
| Scanned_step (i : nat) (ctx : string) (st : list string) (curr : list Rule)
    (rule : Rule) (token : Token) (e : nat) (ts : list Token) (j : nat)
    (st' : list string) :
    i < String.length s ->
    getRules c ctx = Some curr ->
    tryRules (curr ++ ruleGroupAll c) i = Some (rule, token, e) ->
    Scanned e (afterYield rule (ctx :: st)) ts j st' ->
    Scanned i (ctx :: st) (token :: ts) j st'.

(** The generator at the test of the [while] loop. *)
Definition atLoop (i : nat) (st : list string) : Generator :=
  {| gen_offset := i; gen_stack := st; gen_pc := AtLoop |}.

(** The FINAL token. *)
Definition FINAL (offset : nat) : Token := makeToken "FINAL" "FINAL" "" offset.

(** The stack holds compiled groups only. *)
Definition stackOk (st : list string) : Prop :=
  Forall (fun ctx => getRules c ctx <> None) st.

End Scan.

(** [lexer.tokenizerBuilder(s, opt)]: [dbg] is assigned in the closure of the
    lexer, and the tokenizer is the generator [lex(s, [start])]. *)
Definition tokenizerBuilder (lexer : Lexer) (opt : bool) : Lexer * Generator :=
  (builder_dbg lexer opt, lex [start lexer]).

(** The tokens [nextToken()] returns for the text [s], for a lexer compiled
    from [specs]. *)
Definition tokenize (createPosQuery : string -> nat -> nat * nat)
  (specs : Specs) (s : string) (calls fuel : nat)
  : Result (list Token * Ending) :=
  do lexer <- compileLexer specs false;
  Ok (tokens createPosQuery (compiled lexer) s calls fuel
        (snd (tokenizerBuilder lexer false))).

(** ** Example specs *)

(** /\d+/vy and / +/vy, and an action that returns null. *)
Definition digits : RegExp := regexVY "\d+" (RxPlus (RxClass isDigit)).
Definition spaces : RegExp := regexVY " +" (RxPlus (RxChar " ")).
Definition skip : Action := fun _ => None.

(** main: [ ["NUM", /\d+/vy], ["WS", / +/vy, () => null] ] *)
Definition numSpecs : Specs :=
  [("main", [RegExpSpec "NUM" digits None; RegExpSpec "WS" spaces (Some skip)])].

(** A position query for the examples. *)
Definition noPos : string -> nat -> nat * nat := fun _ _ => (1, 1).

(** The text of one line feed. *)
Definition newline : string := String (chr 10) "".

(** The rules of the specs NUM and WS. *)
Definition NUM : Rule :=
  {| rule_name := "NUM"; rule_rx := digits; rule_action := identityAction;
     rule_group := "main"; rule_push := None; rule_pop := false |}.

Definition WS : Rule :=
  {| rule_name := "WS"; rule_rx := spaces; rule_action := skip;
     rule_group := "main"; rule_push := None; rule_pop := false |}.

(** What [numSpecs] compiles to. *)
Definition numRules : Compiled :=
  {| rules := [("main", OwnGroup [NUM; WS])]; ruleGroupAll := [INVALID] |}.

(** main: [ ["a", POP] ] *)
Definition popSpecs : Specs := [("main", [StringPopSpec "a" None])].

(** What [popSpecs] compiles to. *)
Definition popLexer : Lexer :=
  {| specs := popSpecs;
     compiled :=
       {| rules :=
            [("main",
              OwnGroup [{| rule_name := "a";
                           rule_rx := regexVY "a" (RxSeq (RxChar "a") RxEmpty);
                           rule_action := identityAction;
                           rule_group := "main";
                           rule_push := None;
                           rule_pop := true |}])];
          ruleGroupAll := [INVALID] |};
     start := "main";
     dbg := false |}.

(** main: [ ["a"] ] *)
Definition litSpecs : Specs := [("main", [StringSpec "a" None])].

(** What [litSpecs] compiles to. *)
Definition litLexer : Lexer :=
  {| specs := litSpecs;
     compiled :=
       {| rules :=
            [("main",
              OwnGroup [{| rule_name := "a";
                           rule_rx := regexVY "a" (RxSeq (RxChar "a") RxEmpty);
                           rule_action := identityAction;
                           rule_group := "main";
                           rule_push := None;
                           rule_pop := false |}])];
          ruleGroupAll := [INVALID] |};
     start := "main";
     dbg := false |}.

(** main: [ ["a", "constructor"] ] *)
Definition memberSpecs : Specs :=
  [("main", [StringPushSpec "a" "constructor" None])].

(** main: [ ["WS", / +/vy, () => null] ], ALL: [ ["BLANK", / +/vy] ] *)
Definition blankSpecs : Specs :=
  [("main", [RegExpSpec "WS" spaces (Some skip)]);
   ("ALL", [RegExpSpec "BLANK" spaces None])].

(** The rule of the spec BLANK. *)
Definition BLANK : Rule :=
  {| rule_name := "BLANK"; rule_rx := spaces; rule_action := identityAction;
     rule_group := "ALL"; rule_push := None; rule_pop := false |}.

(** What [blankSpecs] compiles to. *)
Definition blankRules : Compiled :=
  {| rules := [("main", OwnGroup [WS]); ("ALL", AllGroup)];
     ruleGroupAll := [BLANK; INVALID] |}.

(** A RegExp with the flag y alone. *)
Definition digitsY : RegExp :=
  {| source := "\d+"; hasIndices := false; global := false; ignoreCase := false;
     multiline := false; dotAll := false; unicode := false;
     unicodeSets := false; sticky := true;
     pattern := RxPlus (RxClass isDigit) |}.

(** ** Vocabulary of the properties *)

(** The text of the token [t] is a non-empty piece of [s], found at the
    offset of [t]. *)
Definition pieceOf (s : string) (t : Token) : Prop :=
  tok_text t <> ""
  /\ String.substring (tok_offset t) (String.length (tok_text t)) s = tok_text t
  /\ tok_offset t + String.length (tok_text t) <= String.length s.

(** The tokens [ts] follow one another from the offset [i] to the offset [j]:
    each starts where the one before it ends. *)
Fixpoint contiguous (i : nat) (ts : list Token) (j : nat) : Prop :=
  match ts with
  | [] => i = j
  | t :: ts' =>
      tok_offset t = i /\ contiguous (i + String.length (tok_text t)) ts' j
  end.

(** Every spec of [specs] compiles to a rule. *)
Definition buildable (specs : Specs) : Prop :=
  forall name specGroup spec,
    In (name, specGroup) specs -> In spec specGroup ->
    exists r, buildRule spec name = Ok r.

(** Every push target of [specs] is a group of [specs]. *)
Definition pushesKnown (specs : Specs) : Prop :=
  forall name specGroup spec p,
    In (name, specGroup) specs -> In spec specGroup ->
    specPush spec = Some p -> In p (map fst specs).

(** Every push target of [specs] is a group of [specs] or the name of an
    inherited member: what [rules] has under it is not null. *)
Definition pushesDefined (specs : Specs) : Prop :=
  forall name specGroup spec p,
    In (name, specGroup) specs -> In spec specGroup ->
    specPush spec = Some p -> In p (map fst specs) \/ inherited p = true.

(** No character of [s] is invisible. *)
Definition visible (s : string) : bool :=
  forallb (fun c => negb (isInvisible c)) (list_ascii_of_string s).

(** The number of invisible characters of [s]. *)
Fixpoint invisibles (s : string) : nat :=
  match s with
  | EmptyString => 0
  | String c s' => (if isInvisible c then 1 else 0) + invisibles s'
  end.

(** [str] without the backslash before each escaped character. *)
Fixpoint unEsc (str : string) : string :=
  match str with
  | EmptyString => EmptyString
  | String "\" (String c str') => String c (unEsc str')
  | String c str' => String c (unEsc str')
  end.

(** The number of characters of [str] that [rxEsc] escapes. *)
Fixpoint escapes (str : string) : nat :=
  match str with
  | EmptyString => 0
  | String c str' => (if rxEscaped c then 1 else 0) + escapes str'
  end.

(** The indices of [l] lie between [i] and the end of [s]. *)
Definition within (s : string) (i : nat) (l : list nat) : Prop :=
  Forall (fun e => i <= e <= String.length s) l.

(** A rule a spec of the group [name] was compiled to. *)
Definition origin (specs : Specs) (name : string) (r : Rule) : Prop :=
  exists specGroup spec,
    In (name, specGroup) specs /\ In spec specGroup /\ buildRule spec name = Ok r.

(** What the first loop of [buildRules] keeps true of [rules] and
    [ruleGroupAll]. *)
Record tableInv (specs : Specs) (rs : Rules) (all : list Rule) : Prop := {
  inv_all : forall g, In ("ALL", g) rs -> g = AllGroup;
  inv_own : forall k g, In (k, g) rs -> k <> "ALL" ->
            exists group, g = OwnGroup group /\ Forall (origin specs k) group;
  inv_ruleGroupAll : Forall (origin specs "ALL") all;
  inv_noAll : lookup rs "ALL" = None -> all = []
}.

(** The rules the scan loop can meet in the context [k]: those of [rules[k]]
    and those of [ruleGroupAll]. *)
Definition reachable (c : Compiled) (r : Rule) : Prop :=
  In r (ruleGroupAll c) \/ exists k group, getRules c k = Some group /\ In r group.

(** What [buildRules] returns for [specs]. *)
Record compiledFrom (specs : Specs) (c : Compiled) : Prop := {
  cf_all : exists declared,
      ruleGroupAll c = declared ++ [INVALID] /\ Forall (origin specs "ALL") declared;
  cf_own : forall k group, getRules c k = Some group -> k <> "ALL" ->
           Forall (origin specs k) group;
  cf_alias : forall group, getRules c "ALL" = Some group -> group = ruleGroupAll c;
  cf_push : forall r p, reachable c r -> rule_push r = Some p ->
            member c p <> Undefined
}.

(** The rules of the group [k] of [specs], spec by spec in the order the
    specs are declared in. *)
Definition declared (specs : Specs) (k : string) (group : list Rule) : Prop :=
  exists specGroup,
    In (k, specGroup) specs
    /\ Forall2 (fun spec r => buildRule spec k = Ok r) specGroup group.

(** No character of [s] is a line terminator. *)
Definition lineTerminatorFree (s : string) : bool :=
  forallb (fun ch => negb (isLineTerminator ch)) (list_ascii_of_string s).

(** Every action of [specs] returns the token it is given. *)
Definition identityActions (specs : Specs) : Prop :=
  forall name specGroup spec token,
    In (name, specGroup) specs -> In spec specGroup ->
    specAction (Some spec) token = Some token.

(** No spec of [specs] carries POP. *)
Definition noPop (specs : Specs) : Prop :=
  forall name specGroup spec,
    In (name, specGroup) specs -> In spec specGroup -> specPop spec = false.

(** The pattern of a literal: its characters, one after the other. *)
Fixpoint literal (str : string) : Regex :=
  match str with
  | EmptyString => RxEmpty
  | String ch str' => RxSeq (RxChar ch) (literal str')
  end.

(** The characters [rxEsc] escapes which a pattern with the flag v may not
    escape: the hyphen, ! < = # , and white space. *)
Definition overEscaped (ch : ascii) : bool :=
  rxEscaped ch && negb (identityEscape ch).

(** No character of [str] is one of those. *)
Definition plainLiteral (str : string) : bool :=
  forallb (fun ch => negb (overEscaped ch)) (list_ascii_of_string str).

(** The specs of [specs] that have a literal for a pattern have a plain
    one. *)
Definition plainSpecs (specs : Specs) : Prop :=
  forall name specGroup spec,
    In (name, specGroup) specs -> In spec specGroup ->
    asRx (at_ spec 1) = None -> plainLiteral (spec0 spec) = true.

(** [str] stands in [s] at the index [i]. *)
Fixpoint occursAt (str s : string) (i : nat) : bool :=
  match str with
  | EmptyString => true
  | String ch str' =>
      match charAt s i with
      | Some ch' => Ascii.eqb ch ch' && occursAt str' s (S i)
      | None => false
      end
  end.

(** * Properties *)

(** ** Strings *)

Lemma get_lt (s : string) : forall i ch,
  String.get i s = Some ch -> i < String.length s.
Proof.
  induction s as [|a s IH]; intros i ch H.
  - destruct i; discriminate.
  - destruct i as [|i]; simpl in *.
    + lia.
    + apply IH in H. lia.
Qed.

Lemma get_some (s : string) : forall i,
  i < String.length s -> exists ch, String.get i s = Some ch.
Proof.
  induction s as [|a s IH]; intros i H; simpl in H.
  - lia.
  - destruct i as [|i]; simpl.
    + now exists a.
    + apply IH. lia.
Qed.

Lemma substring_length (s : string) : forall i n,
  i + n <= String.length s -> String.length (String.substring i n s) = n.
Proof.
  induction s as [|a s IH]; intros i n H; simpl in H.
  - assert (i = 0) by lia. assert (n = 0) by lia. subst. reflexivity.
  - destruct i as [|i].
    + destruct n as [|n]; simpl; [reflexivity|].
      rewrite (IH 0 n); [reflexivity | simpl; lia].
    + simpl. apply IH. lia.
Qed.

Lemma substring_nil (s : string) : forall i, String.substring i 0 s = "".
Proof.
  induction s as [|a s IH]; intros [|i]; simpl; auto.
Qed.

Lemma substring_split (s : string) : forall i a b,
  (String.substring i a s ++ String.substring (i + a) b s)%string
  = String.substring i (a + b) s.
Proof.
  induction s as [|ch s IH]; intros i a b.
  - destruct i, a, b; reflexivity.
  - destruct i as [|i].
    + destruct a as [|a].
      * simpl. destruct b; reflexivity.
      * simpl. f_equal. apply (IH 0 a b).
    + simpl. apply IH.
Qed.

Lemma slice_length (s : string) (i e : nat) :
  i <= e -> e <= String.length s -> String.length (slice s i e) = e - i.
Proof.
  intros H1 H2. unfold slice. apply substring_length. lia.
Qed.

Lemma slice_split (s : string) (i j k : nat) :
  i <= j -> j <= k -> (slice s i j ++ slice s j k)%string = slice s i k.
Proof.
  intros H1 H2. unfold slice.
  replace j with (i + (j - i)) at 2 by lia.
  rewrite substring_split. f_equal. lia.
Qed.

Lemma slice_same (s : string) (i : nat) : slice s i i = "".
Proof. unfold slice. rewrite Nat.sub_diag. apply substring_nil. Qed.

Lemma isEmptyString_length (m : string) :
  isEmptyString m = false <-> 0 < String.length m.
Proof.
  destruct m; simpl; split; intro H; try lia; try discriminate; reflexivity.
Qed.

(** ** Regular expressions: a match ends between its start and the end of
    the text *)

Lemma within_flat_map (s : string) (f : nat -> list nat) (i : nat) (l : list nat) :
  within s i l ->
  (forall j, i <= j <= String.length s -> within s j (f j)) ->
  within s i (flat_map f l).
Proof.
  unfold within. intros Hl Hf. induction Hl as [|e l He Hl IH]; simpl.
  - constructor.
  - apply Forall_app. split; [|exact IH].
    specialize (Hf e He). eapply Forall_impl; [|exact Hf].
    simpl. intros; lia.
Qed.

Lemma starEnds_within (s : string) (step : nat -> list nat) :
  (forall j, j <= String.length s -> within s j (step j)) ->
  forall fuel i, i <= String.length s -> within s i (starEnds step fuel i).
Proof.
  intros Hstep fuel. induction fuel as [|fuel IH]; intros i Hi; simpl.
  - constructor; [lia | constructor].
  - apply Forall_app. split; [|constructor; [lia | constructor]].
    apply within_flat_map; [now apply Hstep|].
    intros j Hj. destruct (j =? i); [constructor|]. apply IH. lia.
Qed.

Lemma ends_within (r : Regex) (s : string) : forall i,
  i <= String.length s -> within s i (ends r s i).
Proof.
  induction r as [|ch|p|r1 IH1 r2 IH2|r1 IH1 r2 IH2|r IH]; intros i Hi;
    cbn [ends].
  - constructor; [lia | constructor].
  - unfold charAt. destruct (String.get i s) as [c'|] eqn:G; [|constructor].
    apply get_lt in G. destruct (Ascii.eqb ch c'); constructor; [lia | constructor].
  - unfold charAt. destruct (String.get i s) as [c'|] eqn:G; [|constructor].
    apply get_lt in G. destruct (p c'); constructor; [lia | constructor].
  - apply within_flat_map; [now apply IH1|]. intros j Hj. apply IH2. lia.
  - apply Forall_app. split; [now apply IH1 | now apply IH2].
  - apply starEnds_within; [exact IH | exact Hi].
Qed.

Lemma flat_map_within (s : string) (f g : nat -> list nat) (i : nat) (l : list nat) :
  within s i l ->
  (forall e, i <= e <= String.length s -> f e = g e) ->
  flat_map f l = flat_map g l.
Proof.
  unfold within. intros Hl Hfg. induction Hl as [|e l He Hl IH]; simpl.
  - reflexivity.
  - now rewrite (Hfg e He), IH.
Qed.

(** The fuel of [r*] does not run out: with more turns than characters left,
    one more turn changes nothing. *)
Lemma starEnds_enough (s : string) (step : nat -> list nat) :
  (forall j, j <= String.length s -> within s j (step j)) ->
  forall fuel i, i <= String.length s -> String.length s - i < fuel ->
  starEnds step (S fuel) i = starEnds step fuel i.
Proof.
  intros Hstep fuel. induction fuel as [|fuel IH]; intros i Hi Hf; [lia|].
  cbn [starEnds]. f_equal.
  apply (flat_map_within s _ _ i); [now apply Hstep|].
  intros e He. destruct (e =? i) eqn:E; [reflexivity|].
  apply Nat.eqb_neq in E. apply IH; lia.
Qed.

(** [r*] always matches, with the empty match as the last resort. *)
Lemma starEnds_nonempty (step : nat -> list nat) (fuel i : nat) :
  starEnds step fuel i <> [].
Proof.
  destruct fuel; simpl; [discriminate|].
  intro H. apply app_eq_nil in H. destruct H; discriminate.
Qed.

(** What [exec] reports is a piece of the text that starts at [lastIndex]. *)
Lemma exec_some (rx : RegExp) (s : string) (i : nat) (m : string) (e : nat) :
  exec rx s i = Some (m, e) ->
  i <= e <= String.length s /\ m = slice s i e.
Proof.
  unfold exec. destruct (String.length s <? i) eqn:L; [discriminate|].
  apply Nat.ltb_ge in L.
  pose proof (ends_within (pattern rx) s i L) as W.
  destruct (ends (pattern rx) s i) as [|e' l]; [discriminate|].
  intro H. injection H as <- <-. inversion W; subst. split; [assumption | reflexivity].
Qed.

Lemma exec_nonempty (rx : RegExp) (s : string) (i : nat) (m : string) (e : nat) :
  exec rx s i = Some (m, e) -> isEmptyString m = false ->
  i < e <= String.length s /\ m = slice s i e.
Proof.
  intros H Hm. apply exec_some in H. destruct H as [[H1 H2] ->].
  split; [|reflexivity]. apply isEmptyString_length in Hm.
  rewrite slice_length in Hm by assumption. lia.
Qed.

(** ** The rule table *)

Lemma lookup_assign (rs : Rules) (n : string) (v : RuleGroup) (k : string) :
  lookup (assign rs n v) k = if String.eqb n k then Some v else lookup rs k.
Proof.
  induction rs as [|[k' g] rs IH]; simpl.
  - reflexivity.
  - destruct (String.eqb k' n) eqn:E; simpl.
    + apply String.eqb_eq in E. subst k'. destruct (String.eqb n k); reflexivity.
    + destruct (String.eqb k' k) eqn:E'; [|exact IH].
      apply String.eqb_eq in E'. subst k'. now rewrite String.eqb_sym, E.
Qed.

Lemma lookup_In (rs : Rules) (k : string) (g : RuleGroup) :
  lookup rs k = Some g -> In (k, g) rs.
Proof.
  induction rs as [|[k' g'] rs IH]; simpl; [discriminate|].
  destruct (String.eqb k' k) eqn:E.
  - apply String.eqb_eq in E. intro H. injection H as ->. subst. now left.
  - intro H. right. now apply IH.
Qed.

Lemma In_assign (rs : Rules) (n : string) (v : RuleGroup) (k : string) (g : RuleGroup) :
  In (k, g) (assign rs n v) -> (k, g) = (n, v) \/ In (k, g) rs.
Proof.
  induction rs as [|[k' g'] rs IH]; simpl.
  - intros [H|[]]. now left.
  - destruct (String.eqb k' n) eqn:E; simpl.
    + apply String.eqb_eq in E. subst k'. intros [H|H]; [now left | now right; right].
    + intros [H|H]; [now right; left|]. destruct (IH H); [now left | now right; right].
Qed.

Lemma mapM_Forall2 {A B : Type} (f : A -> Result B) (l : list A) : forall bs,
  mapM f l = Ok bs -> Forall2 (fun a b => f a = Ok b) l bs.
Proof.
  induction l as [|a l IH]; simpl; intros bs H.
  - injection H as <-. constructor.
  - destruct (f a) as [b|] eqn:Fa; [|discriminate]. simpl in H.
    destruct (mapM f l) as [bs'|]; [|discriminate]. simpl in H.
    injection H as <-. constructor; [exact Fa | now apply IH].
Qed.

Lemma Forall2_In_r {A B : Type} (P : A -> B -> Prop) (l : list A) (bs : list B) :
  Forall2 P l bs -> forall b, In b bs -> exists a, In a l /\ P a b.
Proof.
  induction 1 as [|a b l bs Hab H IH]; intros b' Hb; [contradiction|].
  destruct Hb as [<-|Hb].
  - exists a. split; [now left | assumption].
  - destruct (IH b' Hb) as [a' [Ha' Pa']]. exists a'. split; [now right | assumption].
Qed.

Lemma buildGroups_inv (specs : Specs) : forall entries rs all c,
  incl entries specs -> tableInv specs rs all ->
  buildGroups entries rs all = Ok c ->
  tableInv specs (rules c) (ruleGroupAll c).
Proof.
  induction entries as [|[name specGroup] entries IH]; intros rs all c Hincl Inv H;
    simpl in H.
  - injection H as <-. exact Inv.
  - destruct (mapM (fun spec => buildRule spec name) specGroup) as [built|] eqn:M;
      [|discriminate].
    simpl in H.
    assert (Hin : In (name, specGroup) specs) by (apply Hincl; now left).
    assert (Hbuilt : Forall (origin specs name) built).
    { apply Forall_forall. intros r Hr.
      destruct (Forall2_In_r _ _ _ (mapM_Forall2 _ _ _ M) r Hr) as [sp [Hsp Hb]].
      now exists specGroup, sp. }
    assert (Hincl' : incl entries specs) by (intros x Hx; apply Hincl; now right).
    destruct Inv as [I1 I2 I3 I4].
    destruct (String.eqb name "ALL") eqn:E.
    + apply String.eqb_eq in E. subst name.
      apply (IH _ _ _ Hincl') in H; [exact H|]. constructor.
      * intros g Hg. apply In_assign in Hg. destruct Hg as [Hg|Hg].
        -- now injection Hg.
        -- now apply I1.
      * intros k g Hg Hk. apply In_assign in Hg. destruct Hg as [Hg|Hg].
        -- injection Hg as -> _. contradiction.
        -- now apply I2.
      * apply Forall_app. now split.
      * rewrite lookup_assign. simpl. discriminate.
    + apply String.eqb_neq in E.
      apply (IH _ _ _ Hincl') in H; [exact H|]. constructor.
      * intros g Hg. apply In_assign in Hg. destruct Hg as [Hg|Hg].
        -- injection Hg as Hn _. now subst name.
        -- now apply I1.
      * intros k g Hg Hk. apply In_assign in Hg. destruct Hg as [Hg|Hg].
        -- injection Hg as -> ->. now exists built.
        -- now apply I2.
      * exact I3.
      * rewrite lookup_assign. destruct (String.eqb name "ALL") eqn:E'.
        -- apply String.eqb_eq in E'. contradiction.
        -- exact I4.
Qed.

Lemma tableInv_nil (specs : Specs) : tableInv specs [] [].
Proof.
  constructor; simpl; try contradiction; auto.
Qed.

Lemma checkGroup_ok (c : Compiled) (l : list Rule) :
  checkGroup c l = Ok tt ->
  forall r p, In r l -> rule_push r = Some p -> member c p <> Undefined.
Proof.
  induction l as [|r0 l IH]; simpl; intros H r p Hr Hp; [contradiction|].
  destruct Hr as [<-|Hr].
  - rewrite Hp in H. destruct (member c p); [discriminate H | | ]; discriminate.
  - destruct (rule_push r0) as [p0|]; [|now apply (IH H r p)].
    destruct (member c p0); [discriminate | |]; now apply (IH H r p).
Qed.

Lemma checkGroups_ok (c : Compiled) (gs : list (string * RuleGroup)) :
  checkGroups c gs = Ok tt ->
  forall k g, In (k, g) gs -> checkGroup c (resolve (ruleGroupAll c) g) = Ok tt.
Proof.
  induction gs as [|[k0 g0] gs IH]; simpl; intros H k g Hin; [contradiction|].
  destruct (checkGroup c (resolve (ruleGroupAll c) g0)) as [[]|] eqn:E;
    [|discriminate].
  simpl in H. destruct Hin as [Hin|Hin].
  - injection Hin as _ <-. exact E.
  - now apply (IH H k g).
Qed.

Lemma buildRules_compiledFrom (specs : Specs) (c : Compiled) :
  buildRules specs = Ok c -> compiledFrom specs c.
Proof.
  unfold buildRules. intro H.
  destruct (buildGroups specs [] []) as [built|] eqn:B; [|discriminate].
  cbv beta iota zeta delta [bind] in H.
  set (c0 := {| rules := rules built;
                ruleGroupAll := ruleGroupAll built ++ [INVALID] |}) in *.
  destruct (checkGroups c0 (rules c0)) as [[]|] eqn:K; [|discriminate].
  injection H as <-.
  pose proof (buildGroups_inv specs specs [] [] built (incl_refl _)
                (tableInv_nil specs) B) as [I1 I2 I3 I4].
  assert (Own : forall k group, getRules c0 k = Some group -> k <> "ALL" ->
                Forall (origin specs k) group).
  { unfold getRules. simpl. intros k group Hg Hk.
    destruct (lookup (rules built) k) as [g|] eqn:L; [|discriminate].
    apply lookup_In in L. destruct (I2 k g L Hk) as [grp [-> Hgrp]].
    simpl in Hg. now injection Hg as <-. }
  assert (Alias : forall group, getRules c0 "ALL" = Some group ->
                  group = ruleGroupAll c0).
  { unfold getRules. simpl. intros group Hg.
    destruct (lookup (rules built) "ALL") as [g|] eqn:L; [|discriminate].
    apply lookup_In in L. rewrite (I1 g L) in Hg. simpl in Hg. now injection Hg. }
  assert (Checked : forall k group r p, getRules c0 k = Some group -> In r group ->
                    rule_push r = Some p -> member c0 p <> Undefined).
  { intros k group r p Hg Hr Hp. unfold getRules in Hg. simpl in Hg.
    destruct (lookup (rules built) k) as [g|] eqn:L; [|discriminate].
    apply lookup_In in L. simpl in Hg. injection Hg as <-.
    exact (checkGroup_ok c0 _ (checkGroups_ok c0 _ K k g L) r p Hr Hp). }
  constructor.
  - exists (ruleGroupAll built). split; [reflexivity | exact I3].
  - exact Own.
  - exact Alias.
  - intros r p [Hr|[k [group [Hg Hr]]]] Hp; [|exact (Checked k group r p Hg Hr Hp)].
    destruct (lookup (rules built) "ALL") as [g|] eqn:L.
    + apply (Checked "ALL" (ruleGroupAll c0) r p); try assumption.
      unfold getRules. simpl. rewrite L. simpl.
      apply lookup_In in L. now rewrite (I1 g L).
    + simpl in Hr. rewrite (I4 eq_refl) in Hr. simpl in Hr.
      destruct Hr as [<-|[]]. discriminate Hp.
Qed.

Lemma compileLexer_ok (specs : Specs) (opt : bool) (lexer : Lexer) :
  compileLexer specs opt = Ok lexer ->
  buildRules specs = Ok (compiled lexer)
  /\ getRules (compiled lexer) (start lexer) <> None
  /\ dbg lexer = opt.
Proof.
  unfold compileLexer. destruct (buildRules specs) as [c|]; [|discriminate].
  simpl. destruct (rules c) as [|[name g] rs] eqn:R; [discriminate|].
  simpl. intro H. injection H as <-. simpl.
  repeat split. unfold getRules. rewrite R. simpl. rewrite String.eqb_refl.
  discriminate.
Qed.

(** ** The scan loop *)

Section ScanFacts.

Variable createPosQuery : string -> nat -> nat * nat.
Variable c : Compiled.
Variable s : string.


(** A rule that yields matched a non-empty piece of the text at the offset,
    and its action made the token of that piece. *)
Lemma tryRule_some (rule : Rule) (i : nat) (token : Token) (e : nat) :
  tryRule createPosQuery s rule i = Some (token, e) ->
  i < e <= String.length s
  /\ exec (rule_rx rule) s i = Some (slice s i e, e)
  /\ rule_action rule
       (makeToken createPosQuery s (rule_group rule) (rule_name rule) (slice s i e) i) = Some token.
Proof.
  unfold tryRule.
  destruct (exec (rule_rx rule) s i) as [[m e']|] eqn:X; [|discriminate].
  destruct (isEmptyString m) eqn:M; [discriminate|].
  destruct (exec_nonempty _ _ _ _ _ X M) as [B ->].
  destruct (rule_action rule _) as [t|] eqn:A; [|discriminate].
  intro H. injection H as <- <-. repeat split; try apply B. exact A.
Qed.

(** The rule that yields is the first of the sequence that does. *)
Lemma tryRules_some (l : list Rule) (i : nat) (r : Rule) (token : Token) (e : nat) :
  tryRules createPosQuery s l i = Some (r, token, e) ->
  exists pre post, l = pre ++ r :: post
    /\ Forall (fun r' => tryRule createPosQuery s r' i = None) pre
    /\ tryRule createPosQuery s r i = Some (token, e).
Proof.
  induction l as [|r0 l IH]; simpl; [discriminate|].
  destruct (tryRule createPosQuery s r0 i) as [[t0 e0]|] eqn:T.
  - intro H. injection H as <- <- <-. exists [], l. repeat split; auto.
  - intro H. destruct (IH H) as [pre [post [-> [Hpre Hr]]]].
    exists (r0 :: pre), post. repeat split; auto.
Qed.

Lemma tryRules_app (pre post : list Rule) (i : nat) :
  Forall (fun r' => tryRule createPosQuery s r' i = None) pre ->
  tryRules createPosQuery s (pre ++ post) i = tryRules createPosQuery s post i.
Proof.
  induction 1 as [|r0 pre H0 Hpre IH]; simpl; [reflexivity|].
  now rewrite H0.
Qed.

Lemma tryRules_first (pre post : list Rule) (i : nat) (r : Rule)
  (token : Token) (e : nat) :
  Forall (fun r' => tryRule createPosQuery s r' i = None) pre ->
  tryRule createPosQuery s r i = Some (token, e) ->
  tryRules createPosQuery s (pre ++ r :: post) i = Some (r, token, e).
Proof.
  intros Hpre Hr. rewrite tryRules_app by assumption. simpl. now rewrite Hr.
Qed.

Lemma tryRules_In (l : list Rule) (i : nat) (r : Rule) :
  In r l -> tryRule createPosQuery s r i <> None -> tryRules createPosQuery s l i <> None.
Proof.
  induction l as [|r0 l IH]; simpl; [contradiction|].
  intros [->|Hin] Hr.
  - destruct (tryRule createPosQuery s r i) as [[t e]|]; [discriminate | contradiction].
  - destruct (tryRule createPosQuery s r0 i) as [[t e]|]; [discriminate | now apply IH].
Qed.

(** The pattern of INVALID matches at every character that is no line
    terminator. *)
Lemma INVALID_exec (i : nat) (ch : ascii) :
  charAt s i = Some ch -> isLineTerminator ch = false ->
  exists e, exec (rule_rx INVALID) s i = Some (slice s i e, e)
            /\ i < e <= String.length s.
Proof.
  intros Hc Hlt. pose proof (get_lt _ _ _ Hc) as Hi.
  unfold exec. simpl pattern.
  destruct (String.length s <? i) eqn:L; [apply Nat.ltb_lt in L; lia|].
  unfold RxPlus. cbn [ends]. rewrite Hc. unfold isDot. rewrite Hlt.
  cbn [negb flat_map]. rewrite app_nil_r.
  pose proof (starEnds_within s (ends (RxClass (fun c0 => negb (isLineTerminator c0))) s)
                (fun j Hj => ends_within _ s j Hj)
                (S (String.length s - S i)) (S i) Hi) as W.
  pose proof (starEnds_nonempty
                (ends (RxClass (fun c0 => negb (isLineTerminator c0))) s)
                (S (String.length s - S i)) (S i)) as N.
  cbn [ends] in *.
  destruct (starEnds _ _ _) as [|e l]; [contradiction|].
  inversion W; subst. exists e. split; [reflexivity | lia].
Qed.

Lemma tryRule_INVALID (i : nat) (ch : ascii) :
  charAt s i = Some ch -> isLineTerminator ch = false ->
  exists e, tryRule createPosQuery s INVALID i
            = Some (makeToken createPosQuery s "ALL" "INVALID" (slice s i e) i, e)
            /\ i < e <= String.length s.
Proof.
  intros Hc Hlt. destruct (INVALID_exec i ch Hc Hlt) as [e [X B]].
  exists e. split; [|exact B]. unfold tryRule. rewrite X.
  assert (M : isEmptyString (slice s i e) = false).
  { apply isEmptyString_length. rewrite slice_length; lia. }
  rewrite M. reflexivity.
Qed.

(** A turn of the loop in a context that is a group of the table. *)
Lemma whileBody_group (i : nat) (ctx : string) (st : list string)
  (curr : list Rule) :
  getRules c ctx = Some curr ->
  whileBody createPosQuery c s i (ctx :: st)
  = match tryRules createPosQuery s (curr ++ ruleGroupAll c) i with
    | Some (rule, token, lastIndex) => TurnYield token rule lastIndex
    | None => TurnAgain
    end.
Proof.
  intro Hg. unfold whileBody, member. rewrite Hg. reflexivity.
Qed.

(** A turn of the loop in a context that is no group of the table: the
    assertion fails, or, when the name is that of an inherited member, the
    spread does. *)
Lemma whileBody_no_group (i : nat) (ctx : string) (st : list string) :
  getRules c ctx = None ->
  whileBody createPosQuery c s i (ctx :: st)
  = TurnThrow (if inherited ctx then TypeError
               else InternalError "assertion failed: value not defined").
Proof.
  intro Hg. unfold whileBody, member. rewrite Hg.
  now destruct (inherited ctx).
Qed.

(** With INVALID among the rules of every context, a turn of the loop at a
    character that is no line terminator yields. *)
Lemma whileBody_yields (i : nat) (ch : ascii) (ctx : string) (st : list string)
  (curr : list Rule) :
  In INVALID (ruleGroupAll c) ->
  getRules c ctx = Some curr ->
  charAt s i = Some ch -> isLineTerminator ch = false ->
  exists token rule e,
    whileBody createPosQuery c s i (ctx :: st) = TurnYield token rule e
    /\ tryRules createPosQuery s (curr ++ ruleGroupAll c) i = Some (rule, token, e).
Proof.
  intros Hinv Hg Hc Hlt. rewrite (whileBody_group i ctx st curr Hg).
  destruct (tryRule_INVALID i ch Hc Hlt) as [e [T _]].
  assert (N : tryRules createPosQuery s (curr ++ ruleGroupAll c) i <> None).
  { apply (tryRules_In _ i INVALID).
    - apply in_or_app. now right.
    - rewrite T. discriminate. }
  destruct (tryRules createPosQuery s (curr ++ ruleGroupAll c) i) as [[[r t] e']|]; [|contradiction].
  now exists t, r, e'.
Qed.

Lemma tokens_AtYield (calls fuel e : nat) (st : list string) (rule : Rule) :
  tokens createPosQuery c s calls fuel {| gen_offset := e; gen_stack := st; gen_pc := AtYield rule |}
  = tokens createPosQuery c s calls fuel (atLoop e (afterYield rule st)).
Proof. destruct calls; reflexivity. Qed.

(** A scan that stops at the end of the text or with an empty stack is what
    the calls of [nextToken()] return, followed by the FINAL token; the call
    after that throws LexEndedError. *)
Lemma Scanned_tokens (i : nat) (st : list string) (ts : list Token) (j : nat)
  (st' : list string) :
  Scanned createPosQuery c s i st ts j st' ->
  String.length s <= j \/ st' = [] ->
  forall calls fuel, length ts + 2 <= calls -> 1 <= fuel ->
  tokens createPosQuery c s calls fuel (atLoop i st) = (ts ++ [FINAL createPosQuery s j], Ended).
Proof.
  induction 1 as [i st|i ctx st curr rule token e ts j st' Hi Hg Ht Hs IH];
    intros Hend calls fuel Hcalls Hfuel.
  - destruct calls as [|[|calls]]; simpl in Hcalls; try lia.
    destruct fuel as [|fuel]; [lia|].
    assert (W : whileLoop createPosQuery c s (S fuel) i st = finalYield createPosQuery s i st).
    { simpl. destruct (i <? String.length s) eqn:L; [|reflexivity].
      apply Nat.ltb_lt in L. destruct Hend as [Hend | ->]; [lia | reflexivity]. }
    cbn [tokens]. unfold nextToken at 1, next at 1. cbn [atLoop gen_pc gen_offset gen_stack].
    rewrite W. reflexivity.
  - destruct calls as [|calls]; simpl in Hcalls; try lia.
    destruct fuel as [|fuel]; [lia|].
    cbn [tokens]. unfold nextToken at 1, next at 1. cbn [atLoop gen_pc gen_offset gen_stack].
    cbn [whileLoop]. apply Nat.ltb_lt in Hi. rewrite Hi.
    rewrite (whileBody_group i ctx st curr Hg). rewrite Ht.
    rewrite tokens_AtYield. rewrite IH; [reflexivity | assumption | lia | lia].
Qed.

Lemma afterYield_stackOk (rule : Rule) (st : list string) :
  (forall p, rule_push rule = Some p -> getRules c p <> None) ->
  stackOk c st -> stackOk c (afterYield rule st).
Proof.
  intros Hp Hst. unfold afterYield.
  assert (H1 : stackOk c (if rule_pop rule then tl st else st)).
  { destruct (rule_pop rule); [|exact Hst].
    destruct st; [constructor | now inversion Hst]. }
  destruct (rule_push rule) as [p|]; [|exact H1].
  destruct (isEmptyString p); [exact H1|].
  constructor; [now apply Hp | exact H1].
Qed.

Lemma tryRules_reachable (ctx : string) (curr : list Rule) (i : nat) (rule : Rule)
  (token : Token) (e : nat) :
  getRules c ctx = Some curr ->
  tryRules createPosQuery s (curr ++ ruleGroupAll c) i = Some (rule, token, e) ->
  reachable c rule.
Proof.
  intros Hg Ht. apply tryRules_some in Ht. destruct Ht as [pre [post [E _]]].
  assert (Hin : In rule (curr ++ ruleGroupAll c)).
  { rewrite E. apply in_or_app. right. now left. }
  apply in_app_or in Hin. destruct Hin as [Hin|Hin].
  - right. now exists ctx, curr.
  - now left.
Qed.

(** On a text without line terminators the scan comes to an end: every turn
    yields and moves the offset on, until the end of the text or an empty
    stack. *)
Lemma scan_total :
  In INVALID (ruleGroupAll c) ->
  (forall r p, reachable c r -> rule_push r = Some p -> getRules c p <> None) ->
  (forall i ch, charAt s i = Some ch -> isLineTerminator ch = false) ->
  forall n i st, String.length s - i <= n -> stackOk c st ->
  exists ts j st',
    Scanned createPosQuery c s i st ts j st' /\ (String.length s <= j \/ st' = [])
    /\ length ts <= n /\ (i <= String.length s -> j <= String.length s).
Proof.
  intros Hinv Hpush Hlt n. induction n as [|n IH]; intros i st Hn Hst.
  - exists [], i, st. repeat split; [constructor | left; lia | apply Nat.le_refl | auto].
  - destruct (Nat.le_gt_cases (String.length s) i) as [Hi|Hi].
    { exists [], i, st. repeat split; [constructor | now left | simpl; lia | auto]. }
    destruct st as [|ctx st].
    { exists [], i, []. repeat split; [constructor | now right | simpl; lia | auto]. }
    inversion Hst as [|? ? Hctx Hst']; subst.
    destruct (getRules c ctx) as [curr|] eqn:Hg; [|contradiction].
    destruct (get_some s i Hi) as [ch Hc].
    destruct (whileBody_yields i ch ctx st curr Hinv Hg Hc (Hlt i ch Hc))
      as [token [rule [e [_ Ht]]]].
    pose proof (tryRules_reachable ctx curr i rule token e Hg Ht) as Hr.
    destruct (tryRules_some _ _ _ _ _ Ht) as [_ [_ [_ [_ Hone]]]].
    destruct (tryRule_some _ _ _ _ Hone) as [Hie _].
    destruct (IH e (afterYield rule (ctx :: st))) as [ts [j [st' [Hs [Hend [Hlen Hj]]]]]].
    + lia.
    + apply afterYield_stackOk; [intros p Hp; now apply (Hpush rule p) | exact Hst].
    + exists (token :: ts), j, st'. repeat split.
      * now apply (Scanned_step createPosQuery c s i ctx st curr rule token e).
      * exact Hend.
      * simpl. lia.
      * intros _. apply Hj. lia.
Qed.

(** The offsets of a scan grow. *)
Lemma Scanned_le (i : nat) (st : list string) (ts : list Token) (j : nat)
  (st' : list string) :
  Scanned createPosQuery c s i st ts j st' -> i <= j.
Proof.
  induction 1 as [i st|i ctx st curr rule token e ts j st' Hi Hg Ht Hs IH];
    [apply Nat.le_refl|].
  destruct (tryRules_some _ _ _ _ _ Ht) as [_ [_ [_ [_ Hone]]]].
  destruct (tryRule_some _ _ _ _ Hone) as [Hie _]. lia.
Qed.

(** When every action returns its token, the texts of the tokens of a scan
    are the text between its offsets, piece by piece. *)
Lemma Scanned_texts (i : nat) (st : list string) (ts : list Token) (j : nat)
  (st' : list string) :
  (forall r, reachable c r -> forall t, rule_action r t = Some t) ->
  Scanned createPosQuery c s i st ts j st' ->
  join (map tok_text ts) = slice s i j.
Proof.
  intros Hid.
  induction 1 as [i st|i ctx st curr rule token e ts j st' Hi Hg Ht Hs IH].
  - simpl. now rewrite slice_same.
  - pose proof (tryRules_reachable ctx curr i rule token e Hg Ht) as Hr.
    pose proof (Scanned_le _ _ _ _ _ Hs) as Hej.
    destruct (tryRules_some _ _ _ _ _ Ht) as [_ [_ [_ [_ Hone]]]].
    destruct (tryRule_some _ _ _ _ Hone) as [Hie [_ Ha]].
    rewrite (Hid rule Hr) in Ha. injection Ha as <-.
    simpl. rewrite IH. apply slice_split; lia.
Qed.

(** On a text without line terminators the greedy [.+] runs to the end of
    the text. *)
Lemma starEnds_dot_all :
  (forall i ch, charAt s i = Some ch -> isLineTerminator ch = false) ->
  forall fuel k, k <= String.length s -> String.length s - k < fuel ->
  exists l, starEnds (ends (RxClass isDot) s) fuel k = String.length s :: l.
Proof.
  intros Hlt fuel. induction fuel as [|fuel IH]; intros k Hk Hf; [lia|].
  cbn [starEnds ends].
  destruct (charAt s k) as [ch|] eqn:Hc.
  - pose proof (get_lt _ _ _ Hc) as Hlen.
    unfold isDot. rewrite (Hlt k ch Hc). cbn [negb flat_map].
    replace (S k =? k) with false by (symmetry; apply Nat.eqb_neq; lia).
    destruct (IH (S k)) as [l El]; [lia | lia |].
    cbn [ends] in El. unfold isDot in El. rewrite El.
    eexists. reflexivity.
  - assert (k = String.length s).
    { destruct (Nat.eq_dec k (String.length s)) as [E|E]; [exact E|].
      destruct (get_some s k) as [ch Hch]; [lia|].
      unfold charAt in Hc. rewrite Hch in Hc. discriminate. }
    subst k. simpl. eexists. reflexivity.
Qed.

Lemma INVALID_to_end (i : nat) (token : Token) (e : nat) :
  (forall i ch, charAt s i = Some ch -> isLineTerminator ch = false) ->
  tryRule createPosQuery s INVALID i = Some (token, e) -> e = String.length s.
Proof.
  intros Hlt H. apply tryRule_some in H. destruct H as [Hie [X _]].
  unfold exec in X. simpl pattern in X.
  destruct (String.length s <? i); [discriminate|].
  unfold RxPlus in X. cbn [ends] in X.
  destruct (charAt s i) as [ch|] eqn:Hc; [|discriminate].
  pose proof (get_lt _ _ _ Hc) as Hlen.
  assert (D : isDot ch = true) by (unfold isDot; now rewrite (Hlt i ch Hc)).
  rewrite D in X. cbn [flat_map] in X.
  destruct (starEnds_dot_all Hlt (S (String.length s - S i)) (S i)) as [l El];
    [lia | lia |].
  cbn [ends] in El. rewrite El in X. simpl in X. now injection X as _ <-.
Qed.

(** When INVALID is the only rule that pops, the stack of a scan of a text
    without line terminators is empty at the end of the text only. *)
Lemma Scanned_stack (i : nat) (st : list string) (ts : list Token) (j : nat)
  (st' : list string) :
  (forall i ch, charAt s i = Some ch -> isLineTerminator ch = false) ->
  (forall r, reachable c r -> rule_pop r = true -> r = INVALID) ->
  Scanned createPosQuery c s i st ts j st' ->
  st <> [] \/ String.length s <= i ->
  st' <> [] \/ String.length s <= j.
Proof.
  intros Hlt Hpop.
  induction 1 as [i st|i ctx st curr rule token e ts j st' Hi Hg Ht Hs IH];
    intro H0; [exact H0|].
  apply IH.
  pose proof (tryRules_reachable ctx curr i rule token e Hg Ht) as Hr.
  destruct (tryRules_some _ _ _ _ _ Ht) as [_ [_ [_ [_ Hone]]]].
  destruct (rule_pop rule) eqn:P.
  - right. rewrite (Hpop rule Hr P) in Hone.
    rewrite (INVALID_to_end i token e Hlt Hone). apply Nat.le_refl.
  - left. unfold afterYield. rewrite P.
    destruct (rule_push rule) as [p|]; [|discriminate].
    destruct (isEmptyString p); discriminate.
Qed.

End ScanFacts.

(** ** Compiling specs *)

Lemma revString_app (a b acc : string) :
  revString (a ++ b) acc = revString b (revString a acc).
Proof.
  revert acc. induction a as [|ch a IH]; intro acc; simpl; [reflexivity|].
  apply IH.
Qed.

Lemma string_app_assoc (a b d : string) : ((a ++ b) ++ d = a ++ (b ++ d))%string.
Proof.
  induction a as [|ch a IH]; simpl; [reflexivity | now rewrite IH].
Qed.

(** The test [rx.toString().endsWith("/vy")] holds for the flags "vy" and
    for no others. *)
Lemma flags_check (rx : RegExp) :
  endsWith (toString rx) "/vy" = String.eqb (flags rx) "vy".
Proof.
  unfold endsWith, toString.
  replace ("/" ++ source rx ++ "/" ++ flags rx)%string
    with (("/" ++ source rx) ++ ("/" ++ flags rx))%string
    by (now rewrite string_app_assoc).
  rewrite revString_app.
  generalize (revString ("/" ++ source rx) "") as acc. intro acc.
  unfold flags, flag.
  destruct (hasIndices rx), (global rx), (ignoreCase rx), (multiline rx),
    (dotAll rx), (unicode rx), (unicodeSets rx), (sticky rx); reflexivity.
Qed.

Lemma flags_vy (rx : RegExp) :
  flags rx = "vy" ->
  sticky rx = true /\ unicodeSets rx = true /\ hasIndices rx = false
  /\ global rx = false /\ ignoreCase rx = false /\ multiline rx = false
  /\ dotAll rx = false /\ unicode rx = false.
Proof.
  unfold flags, flag.
  destruct (hasIndices rx), (global rx), (ignoreCase rx), (multiline rx),
    (dotAll rx), (unicode rx), (unicodeSets rx), (sticky rx);
    simpl; intro H; try discriminate H; repeat split.
Qed.

(** The fields of a rule [buildRule] returns. *)
Lemma buildRule_ok (spec : Spec) (group : string) (r : Rule) :
  buildRule spec group = Ok r ->
  rule_name r = spec0 spec /\ rule_group r = group
  /\ rule_pop r = specPop spec /\ rule_push r = specPush spec
  /\ rule_action r = specAction (Some spec)
  /\ flags (rule_rx r) = "vy".
Proof.
  unfold buildRule.
  destruct (match asRx (at_ spec 1) with
            | Some rx => Ok rx
            | None => toRx (spec0 spec)
            end) as [rx|]; [|discriminate].
  cbv beta iota zeta delta [bind].
  destruct (endsWith (toString rx) "/vy") eqn:E; [|discriminate].
  intro H. injection H as <-. simpl. repeat split.
  rewrite flags_check in E. now apply String.eqb_eq.
Qed.

Lemma origin_group (specs : Specs) (k : string) (r : Rule) :
  origin specs k r -> rule_group r = k.
Proof.
  intros [specGroup [spec [_ [_ H]]]]. now apply buildRule_ok in H.
Qed.

Lemma buildGroups_keep (k : string) : forall entries rs all c,
  buildGroups entries rs all = Ok c -> ~ In k (map fst entries) ->
  lookup (rules c) k = lookup rs k.
Proof.
  induction entries as [|[name specGroup] entries IH]; intros rs all c H Hk;
    simpl in H.
  - now injection H as <-.
  - destruct (mapM (fun spec => buildRule spec name) specGroup) as [built|];
      [|discriminate].
    cbv beta iota zeta delta [bind] in H. simpl in Hk.
    assert (Hne : String.eqb name k = false).
    { apply String.eqb_neq. intro E. apply Hk. now left. }
    assert (Hk' : ~ In k (map fst entries)) by (intro; apply Hk; now right).
    destruct (String.eqb name "ALL"); rewrite (IH _ _ _ H Hk'), lookup_assign;
      now rewrite Hne.
Qed.

Lemma buildGroups_all_keep : forall entries rs all c,
  buildGroups entries rs all = Ok c -> ~ In "ALL" (map fst entries) ->
  ruleGroupAll c = all.
Proof.
  induction entries as [|[name specGroup] entries IH]; intros rs all c H Hk;
    simpl in H.
  - now injection H as <-.
  - destruct (mapM (fun spec => buildRule spec name) specGroup) as [built|];
      [|discriminate].
    cbv beta iota zeta delta [bind] in H. simpl in Hk.
    assert (Hk' : ~ In "ALL" (map fst entries)) by (intro; apply Hk; now right).
    destruct (String.eqb name "ALL") eqn:E.
    + apply String.eqb_eq in E. exfalso. apply Hk. now left.
    + exact (IH _ _ _ H Hk').
Qed.

Lemma buildGroups_own (k : string) (specGroup : list Spec) :
  forall entries rs all c,
  buildGroups entries rs all = Ok c -> NoDup (map fst entries) ->
  In (k, specGroup) entries -> k <> "ALL" ->
  exists group,
    Forall2 (fun spec r => buildRule spec k = Ok r) specGroup group
    /\ lookup (rules c) k = Some (OwnGroup group).
Proof.
  induction entries as [|[name sg] entries IH]; intros rs all c H Hnd Hin Hk;
    [contradiction|].
  simpl in H, Hnd. inversion Hnd as [|? ? Hnotin Hnd']; subst.
  destruct (mapM (fun spec => buildRule spec name) sg) as [built|] eqn:M;
    [|discriminate].
  cbv beta iota zeta delta [bind] in H.
  destruct Hin as [Hin|Hin].
  - injection Hin as -> ->.
    assert (E : String.eqb k "ALL" = false) by now apply String.eqb_neq.
    rewrite E in H. exists built. split; [now apply mapM_Forall2|].
    rewrite (buildGroups_keep k _ _ _ _ H Hnotin), lookup_assign.
    now rewrite String.eqb_refl.
  - destruct (String.eqb name "ALL"); exact (IH _ _ _ H Hnd' Hin Hk).
Qed.

Lemma buildGroups_ALL (specGroup : list Spec) :
  forall entries rs all c,
  buildGroups entries rs all = Ok c -> NoDup (map fst entries) ->
  In ("ALL", specGroup) entries ->
  exists group,
    Forall2 (fun spec r => buildRule spec "ALL" = Ok r) specGroup group
    /\ ruleGroupAll c = all ++ group.
Proof.
  induction entries as [|[name sg] entries IH]; intros rs all c H Hnd Hin;
    [contradiction|].
  simpl in H, Hnd. inversion Hnd as [|? ? Hnotin Hnd']; subst.
  destruct (mapM (fun spec => buildRule spec name) sg) as [built|] eqn:M;
    [|discriminate].
  cbv beta iota zeta delta [bind] in H.
  destruct Hin as [Hin|Hin].
  - injection Hin as -> ->. simpl in H. exists built.
    split; [now apply mapM_Forall2|].
    exact (buildGroups_all_keep _ _ _ _ H Hnotin).
  - destruct (String.eqb name "ALL") eqn:E.
    + apply String.eqb_eq in E. subst name. exfalso. apply Hnotin.
      apply (in_map fst) in Hin. exact Hin.
    + exact (IH _ _ _ H Hnd' Hin).
Qed.

(** The rule table of a lexer compiled from specs with distinct group names
    holds, for every group, its rules in declared order; [ruleGroupAll] holds
    those of the group "ALL", then INVALID. *)
Lemma buildRules_declared (specs : Specs) (c : Compiled) :
  buildRules specs = Ok c -> NoDup (map fst specs) ->
  (exists all, ruleGroupAll c = all ++ [INVALID]
     /\ (In "ALL" (map fst specs) -> declared specs "ALL" all)
     /\ (~ In "ALL" (map fst specs) -> all = []))
  /\ (forall k specGroup, In (k, specGroup) specs -> k <> "ALL" ->
      exists group, getRules c k = Some group /\ declared specs k group).
Proof.
  unfold buildRules. intros H Hnd.
  destruct (buildGroups specs [] []) as [built|] eqn:B; [|discriminate].
  cbv beta iota zeta delta [bind] in H.
  destruct (checkGroups _ _) as [[]|]; [|discriminate].
  injection H as <-. simpl. split.
  - exists (ruleGroupAll built). split; [reflexivity|]. split.
    + intro Hin. apply in_map_iff in Hin. destruct Hin as [[k sg] [Hk Hin]].
      simpl in Hk. subst k.
      destruct (buildGroups_ALL sg _ _ _ _ B Hnd Hin) as [group [F E]].
      simpl in E. rewrite E. now exists sg.
    + intro Hnot. exact (buildGroups_all_keep _ _ _ _ B Hnot).
  - intros k sg Hin Hk.
    destruct (buildGroups_own k sg _ _ _ _ B Hnd Hin Hk) as [group [F L]].
    exists group. split; [|now exists sg].
    unfold getRules. simpl. now rewrite L.
Qed.

(** * The claims *)

(** ** The scenario of the text "12 34" *)

Lemma numSpecs_compiled (opt : bool) :
  compileLexer numSpecs opt
  = Ok {| specs := numSpecs; compiled := numRules; start := "main"; dbg := opt |}.
Proof. reflexivity. Qed.

(** C1, as the code has it: for the specs main: NUM (one or more digits), WS
    (one or more spaces, with an action returning null), the text "12 34" is
    tokenized to NUM "12" at offset 0, INVALID " 34" at offset 2 and FINAL ""
    at offset 5; the call after FINAL throws LexEndedError.  The rule WS is
    skipped at offset 2, and INVALID takes the rest of the line. *)
Theorem tokenize_12_34 (createPosQuery : string -> nat -> nat * nat)
  (calls fuel : nat) :
  tokenize createPosQuery numSpecs "12 34" (4 + calls) (S fuel)
  = Ok ([makeToken createPosQuery "12 34" "main" "NUM" "12" 0;
         makeToken createPosQuery "12 34" "ALL" "INVALID" " 34" 2;
         makeToken createPosQuery "12 34" "FINAL" "FINAL" "" 5], Ended).
Proof. reflexivity. Qed.

(** C1, as the claim states it, fails: the tokens of "12 34" are not NUM "12"
    at 0, NUM "34" at 3, FINAL "" at 5. *)
Lemma tokenize_12_34_not_claimed :
  tokenize noPos numSpecs "12 34" 7 1
  <> Ok ([makeToken noPos "12 34" "main" "NUM" "12" 0;
          makeToken noPos "12 34" "main" "NUM" "34" 3;
          makeToken noPos "12 34" "FINAL" "FINAL" "" 5], Ended).
Proof. vm_compute. discriminate. Qed.

(** C2, as the code has it: when a rule matches a non-empty piece of the text
    at the offset and its action returns null, no token is made of that match
    and the [for] loop goes on to the rules after it, at the same offset and
    with the same stack; the turn of the loop comes to what these rules come
    to, and when none of them yields either, offset and stack are as
    before. *)
Theorem skip_tries_next_rule (createPosQuery : string -> nat -> nat * nat)
  (c : Compiled) (s : string) (offset : nat) (ctx : string) (st : list string)
  (curr pre post : list Rule) (rule : Rule) (match0 : string) (lastIndex : nat) :
  getRules c ctx = Some curr ->
  curr ++ ruleGroupAll c = pre ++ rule :: post ->
  Forall (fun r => tryRule createPosQuery s r offset = None) pre ->
  exec (rule_rx rule) s offset = Some (match0, lastIndex) ->
  isEmptyString match0 = false ->
  rule_action rule
    (makeToken createPosQuery s (rule_group rule) (rule_name rule) match0 offset)
  = None ->
  tryRule createPosQuery s rule offset = None
  /\ whileBody createPosQuery c s offset (ctx :: st)
     = match tryRules createPosQuery s post offset with
       | Some (r, token, e) => TurnYield token r e
       | None => TurnAgain
       end.
Proof.
  intros Hg Hsplit Hpre Hx Hm Ha.
  assert (T : tryRule createPosQuery s rule offset = None).
  { unfold tryRule. now rewrite Hx, Hm, Ha. }
  split; [exact T|].
  rewrite (whileBody_group createPosQuery c s offset ctx st curr Hg).
  rewrite Hsplit.
  rewrite tryRules_app by exact Hpre. simpl. now rewrite T.
Qed.

(** At offset 2 of "12 34" the rule WS matches the space and its action
    returns null: INVALID, the rule after it, yields at offset 2. *)
Lemma skip_tries_next_rule_witness :
  tryRule noPos "12 34" WS 2 = None
  /\ whileBody noPos numRules "12 34" 2 ["main"]
     = match tryRules noPos "12 34" [INVALID] 2 with
       | Some (r, token, e) => TurnYield token r e
       | None => TurnAgain
       end.
Proof.
  apply (skip_tries_next_rule noPos numRules "12 34" 2 "main" [] [NUM; WS]
           [NUM] [INVALID] WS " " 3).
  - reflexivity.
  - reflexivity.
  - repeat constructor.
  - reflexivity.
  - reflexivity.
  - reflexivity.
Defined.

(** C2, as the claim states it, fails: at offset 2 of "12 34" the rule WS
    matches " " up to offset 3 and its action returns null, and yet the turn
    yields a token, INVALID " 34" at offset 2, and the offset moves to 5; the
    loop does not start again at offset 3, where NUM "34" would be next. *)
Lemma skip_does_not_advance :
  exec (rule_rx WS) "12 34" 2 = Some (" ", 3)
  /\ rule_action WS (makeToken noPos "12 34" "main" "WS" " " 2) = None
  /\ whileLoop noPos numRules "12 34" 1 2 ["main"]
     = Value (makeToken noPos "12 34" "ALL" "INVALID" " 34" 2)
         {| gen_offset := 5; gen_stack := ["main"]; gen_pc := AtYield INVALID |}
  /\ whileLoop noPos numRules "12 34" 1 2 ["main"]
     <> whileLoop noPos numRules "12 34" 1 3 ["main"].
Proof.
  repeat split. vm_compute. discriminate.
Qed.

(** ** Line terminators *)

(** At a line feed no rule of [numRules] matches, INVALID included: the turn
    ends with offset and stack as they were. *)
Lemma newline_turn (createPosQuery : string -> nat -> nat * nat) :
  whileBody createPosQuery numRules newline 0 ["main"] = TurnAgain.
Proof. reflexivity. Qed.

Lemma newline_loop (createPosQuery : string -> nat -> nat * nat) (fuel : nat) :
  whileLoop createPosQuery numRules newline fuel 0 ["main"] = Running.
Proof.
  induction fuel as [|fuel IH]; [reflexivity|].
  cbn [whileLoop]. rewrite newline_turn. exact IH.
Qed.

(** C3, at the failing input: for the specs main: NUM, WS and the text of one
    line feed, the [while] loop turns for ever; however many turns it is
    given, the first call of [nextToken()] has not returned. *)
Theorem newline_never_returns (createPosQuery : string -> nat -> nat * nat)
  (calls fuel : nat) :
  tokenize createPosQuery numSpecs newline (S calls) fuel = Ok ([], Hangs).
Proof.
  unfold tokenize. rewrite numSpecs_compiled.
  cbn -[whileLoop newline nextToken]. unfold nextToken, next, lex.
  cbn [gen_pc gen_offset gen_stack]. now rewrite newline_loop.
Qed.

(** C4, at the failing input: at offset 0 of the text of one line feed,
    below its length and with the stack [main], no rule of the rule sequence
    matches, INVALID included, and the turn is no fault: it ends with nothing
    thrown, offset and stack as they were. *)
Theorem newline_no_rule_matches :
  0 < String.length newline
  /\ getRules numRules "main" = Some [NUM; WS]
  /\ Forall (fun r => exec (rule_rx r) newline 0 = None)
       ([NUM; WS] ++ ruleGroupAll numRules)
  /\ whileBody noPos numRules newline 0 ["main"] = TurnAgain.
Proof.
  repeat split; repeat constructor.
Qed.

(** ** Covering the text *)

Lemma lineTerminatorFree_charAt (s : string) :
  lineTerminatorFree s = true ->
  forall i ch, charAt s i = Some ch -> isLineTerminator ch = false.
Proof.
  unfold lineTerminatorFree, charAt.
  induction s as [|a s IH]; intros H i ch Hc.
  - destruct i; discriminate.
  - simpl in H. apply andb_prop in H. destruct H as [Ha Hs].
    destruct i as [|i]; simpl in Hc.
    + injection Hc as <-. now apply negb_true_iff in Ha.
    + exact (IH Hs i ch Hc).
Qed.

Lemma slice_all (s : string) : slice s 0 (String.length s) = s.
Proof.
  unfold slice. rewrite Nat.sub_0_r.
  induction s as [|a s IH]; simpl; [reflexivity | now rewrite IH].
Qed.

Lemma reachable_origin (specs : Specs) (c : Compiled) (r : Rule) :
  compiledFrom specs c -> reachable c r ->
  r = INVALID \/ exists k, origin specs k r.
Proof.
  intros [[all [Eall Hall]] Hown Halias _] Hr.
  assert (A : In r (ruleGroupAll c) -> r = INVALID \/ exists k, origin specs k r).
  { rewrite Eall. intro Hin. apply in_app_or in Hin. destruct Hin as [Hin|[<-|[]]].
    - right. exists "ALL". rewrite Forall_forall in Hall. now apply Hall.
    - now left. }
  destruct Hr as [Hr|[k [group [Hg Hr]]]]; [now apply A|].
  destruct (String.eqb k "ALL") eqn:E.
  - apply String.eqb_eq in E. subst k. apply A. now rewrite <- (Halias group Hg).
  - apply String.eqb_neq in E. right. exists k.
    pose proof (Hown k group Hg E) as F. rewrite Forall_forall in F. now apply F.
Qed.

Lemma popSpecs_identity : identityActions popSpecs.
Proof.
  intros name specGroup spec token [H|[]] Hs. injection H as <- <-.
  destruct Hs as [<-|[]]. reflexivity.
Qed.

(** C5, as the claim states it, fails: with the one context main and its one
    rule a, which carries POP and has the identity action, the text "ab" is
    tokenized to a "a" at offset 0 and FINAL at offset 1: the stack is empty
    after the first token, and the texts before FINAL make up "a", not
    "ab". *)
Lemma pop_stops_short :
  tokenize noPos popSpecs "ab" 4 1
  = Ok ([makeToken noPos "ab" "main" "a" "a" 0;
         makeToken noPos "ab" "FINAL" "FINAL" "" 1], Ended)
  /\ join (map tok_text [makeToken noPos "ab" "main" "a" "a" 0]) <> "ab".
Proof.
  split; [reflexivity | discriminate].
Qed.

(** ** Precedence *)

Lemma buildRules_keys (specs : Specs) (c : Compiled) (k : string) :
  buildRules specs = Ok c -> getRules c k <> None -> In k (map fst specs).
Proof.
  unfold buildRules. intros H Hk.
  destruct (buildGroups specs [] []) as [built|] eqn:B; [|discriminate].
  cbv beta iota zeta delta [bind] in H.
  destruct (checkGroups _ _) as [[]|]; [|discriminate].
  injection H as <-. unfold getRules in Hk. simpl in Hk.
  destruct (in_dec string_dec k (map fst specs)) as [Hin|Hnot]; [exact Hin|].
  rewrite (buildGroups_keep k _ _ _ _ B Hnot) in Hk. simpl in Hk. contradiction.
Qed.

(** C6, as the code has it: the rule sequence of a turn of the loop is the
    rules of the current context in declared order, then the rules of the
    group ALL in declared order, then INVALID, and the rule that yields is the
    first of that sequence which matches a non-empty piece of the text and
    whose action returns a token; a rule whose action returns null gives way
    to the rules after it. *)
Theorem rule_precedence (createPosQuery : string -> nat -> nat * nat)
  (specs : Specs) (opt : bool) (lexer : Lexer) (s : string) (offset : nat)
  (ctx : string) (st : list string) (curr : list Rule) :
  compileLexer specs opt = Ok lexer ->
  NoDup (map fst specs) ->
  getRules (compiled lexer) ctx = Some curr ->
  exists all,
    ruleGroupAll (compiled lexer) = all ++ [INVALID]
    /\ (In "ALL" (map fst specs) -> declared specs "ALL" all)
    /\ (~ In "ALL" (map fst specs) -> all = [])
    /\ (ctx <> "ALL" -> declared specs ctx curr)
    /\ (ctx = "ALL" -> curr = all ++ [INVALID])
    /\ whileBody createPosQuery (compiled lexer) s offset (ctx :: st)
       = match tryRules createPosQuery s (curr ++ all ++ [INVALID]) offset with
         | Some (r, token, e) => TurnYield token r e
         | None => TurnAgain
         end
    /\ (forall rule token e,
        whileBody createPosQuery (compiled lexer) s offset (ctx :: st)
        = TurnYield token rule e
        <-> exists pre post,
              curr ++ all ++ [INVALID] = pre ++ rule :: post
              /\ Forall (fun r => tryRule createPosQuery s r offset = None) pre
              /\ tryRule createPosQuery s rule offset = Some (token, e)).
Proof.
  intros Hc Hnd Hg.
  destruct (compileLexer_ok _ _ _ Hc) as [Hb _].
  pose proof (buildRules_compiledFrom _ _ Hb) as CF.
  destruct (buildRules_declared _ _ Hb Hnd) as [[all [Eall [Hall Hnone]]] Hown].
  assert (W : whileBody createPosQuery (compiled lexer) s offset (ctx :: st)
              = match tryRules createPosQuery s (curr ++ all ++ [INVALID]) offset with
                | Some (r, token, e) => TurnYield token r e
                | None => TurnAgain
                end).
  { rewrite (whileBody_group createPosQuery _ s offset ctx st curr Hg).
    now rewrite Eall. }
  exists all. repeat (split; [assumption|]).
  split; [|split; [|split; [exact W|]]].
  - intro Hne.
    assert (Hin : In ctx (map fst specs)).
    { apply (buildRules_keys _ _ _ Hb). rewrite Hg. discriminate. }
    apply in_map_iff in Hin. destruct Hin as [[k sg] [Hk Hin]]. simpl in Hk. subst k.
    destruct (Hown ctx sg Hin Hne) as [group [Hg' D]].
    rewrite Hg in Hg'. injection Hg' as ->. exact D.
  - intros ->. rewrite <- Eall. exact (cf_alias _ _ CF curr Hg).
  - intros rule token e. rewrite W. split.
    + destruct (tryRules createPosQuery s (curr ++ all ++ [INVALID]) offset)
        as [[[r t] e']|] eqn:T; [|discriminate].
      intro H. injection H as <- <- <-.
      exact (tryRules_some _ _ _ _ _ _ _ T).
    + intros [pre [post [E [Hpre Hr]]]]. rewrite E.
      now rewrite (tryRules_first _ _ pre post offset rule token e Hpre Hr).
Qed.

Lemma numSpecs_NoDup : NoDup (map fst numSpecs).
Proof. repeat constructor. simpl. tauto. Qed.

(** The context main of [numSpecs] at offset 2 of "12 34". *)
Lemma rule_precedence_witness :
  exists all,
    ruleGroupAll numRules = all ++ [INVALID]
    /\ (In "ALL" (map fst numSpecs) -> declared numSpecs "ALL" all)
    /\ (~ In "ALL" (map fst numSpecs) -> all = [])
    /\ ("main" <> "ALL" -> declared numSpecs "main" [NUM; WS])
    /\ ("main" = "ALL" -> [NUM; WS] = all ++ [INVALID])
    /\ whileBody noPos numRules "12 34" 2 ["main"]
       = match tryRules noPos "12 34" ([NUM; WS] ++ all ++ [INVALID]) 2 with
         | Some (r, token, e) => TurnYield token r e
         | None => TurnAgain
         end
    /\ (forall rule token e,
        whileBody noPos numRules "12 34" 2 ["main"] = TurnYield token rule e
        <-> exists pre post,
              [NUM; WS] ++ all ++ [INVALID] = pre ++ rule :: post
              /\ Forall (fun r => tryRule noPos "12 34" r 2 = None) pre
              /\ tryRule noPos "12 34" rule 2 = Some (token, e)).
Proof.
  apply (rule_precedence noPos numSpecs false
           {| specs := numSpecs; compiled := numRules; start := "main";
              dbg := false |} "12 34" 2 "main" [] [NUM; WS]).
  - reflexivity.
  - exact numSpecs_NoDup.
  - reflexivity.
Defined.

Lemma blankSpecs_compiled (opt : bool) :
  compileLexer blankSpecs opt
  = Ok {| specs := blankSpecs; compiled := blankRules; start := "main";
          dbg := opt |}.
Proof. reflexivity. Qed.

(** C6, as the claim states it, fails: with WS in the context main and BLANK
    in the group ALL, both matching one or more spaces, both rules match at
    offset 0 of the text " ", and the token of the turn is that of BLANK, the
    later of the two. *)
Lemma later_rule_wins :
  getRules blankRules "main" = Some [WS]
  /\ ruleGroupAll blankRules = [BLANK; INVALID]
  /\ exec (rule_rx WS) " " 0 = Some (" ", 1)
  /\ exec (rule_rx BLANK) " " 0 = Some (" ", 1)
  /\ whileBody noPos blankRules " " 0 ["main"]
     = TurnYield (makeToken noPos " " "ALL" "BLANK" " " 0) BLANK 1.
Proof. repeat split. Qed.

(** ** Compile errors and literal specs *)

Lemma syntax_escaped (ch : ascii) :
  rxEscaped ch = false -> isSyntaxCharacter ch = false /\ ch <> "\"%char.
Proof.
  destruct ch as [[] [] [] [] [] [] [] []]; vm_compute; intro H;
    try discriminate H; split; try reflexivity; discriminate.
Qed.

Lemma parse_rxEsc (str : string) :
  plainLiteral str = true -> parseLiteral (rxEsc str) = Pattern (literal str).
Proof.
  unfold plainLiteral. induction str as [|ch str IH]; intro H; [reflexivity|].
  simpl in H. apply andb_prop in H. destruct H as [Hch Hstr].
  specialize (IH Hstr). cbn [rxEsc literal].
  unfold overEscaped in Hch. destruct (rxEscaped ch) eqn:E.
  - simpl in Hch. apply negb_true_iff, negb_false_iff in Hch.
    cbn [parseLiteral]. rewrite Hch, IH. reflexivity.
  - destruct (syntax_escaped ch E) as [Hs Hb].
    assert (P : parseLiteral (String ch (rxEsc str))
                = if isSyntaxCharacter ch then Unsupported
                  else seqChar ch (parseLiteral (rxEsc str))).
    { destruct ch as [[] [] [] [] [] [] [] []]; try reflexivity.
      now contradiction Hb. }
    rewrite P, Hs, IH. reflexivity.
Qed.

Lemma literal_ends (str s : string) : forall i,
  ends (literal str) s i
  = if occursAt str s i then [i + String.length str] else [].
Proof.
  induction str as [|ch str IH]; intro i; cbn [literal ends occursAt String.length].
  - now rewrite Nat.add_0_r.
  - destruct (charAt s i) as [ch'|]; [|reflexivity].
    destruct (Ascii.eqb ch ch'); [|reflexivity].
    cbn [flat_map andb]. rewrite app_nil_r, IH, Nat.add_succ_r. reflexivity.
Qed.

Lemma occursAt_substring (str s : string) : forall i,
  i <= String.length s ->
  occursAt str s i = true ->
  String.substring i (String.length str) s = str
  /\ i + String.length str <= String.length s.
Proof.
  induction str as [|ch str IH]; intros i Hi H; simpl in *.
  - split; [apply substring_nil | lia].
  - destruct (charAt s i) as [ch'|] eqn:C; [|discriminate].
    apply andb_prop in H. destruct H as [Hch Hrest].
    apply Ascii.eqb_eq in Hch. subst ch'.
    pose proof (get_lt _ _ _ C) as Hlt.
    destruct (IH (S i) Hlt Hrest) as [Hsub Hlen]. split; [|lia].
    clear IH Hrest Hlen Hlt Hi. revert i C Hsub. unfold charAt.
    induction s as [|a s IHs]; intros i C Hsub; [destruct i; discriminate|].
    destruct i as [|i]; simpl in *.
    + injection C as ->. now rewrite Hsub.
    + now apply IHs.
Qed.

Lemma substring_occursAt (str s : string) : forall i,
  String.substring i (String.length str) s = str ->
  occursAt str s i = true.
Proof.
  induction str as [|ch str IH]; intros i H; [reflexivity|].
  cbn [occursAt]. unfold charAt.
  assert (G : String.get i s = Some ch
              /\ String.substring (S i) (String.length str) s = str).
  { clear IH. revert i H. induction s as [|a s IHs]; intros i H.
    - destruct i; discriminate.
    - destruct i as [|i]; simpl in *.
      + injection H as -> H. now split.
      + now apply IHs. }
  destruct G as [G1 G2]. rewrite G1, Ascii.eqb_refl. simpl. now apply IH.
Qed.

Lemma checkGroup_error (c : Compiled) (l : list Rule) (e : Error) :
  checkGroup c l = Throw e -> exists message, e = LexError message.
Proof.
  induction l as [|r l IH]; simpl; [discriminate|].
  destruct (rule_push r) as [p|]; [|exact IH].
  destruct (member c p); [|exact IH|exact IH].
  intro H. injection H as <-. eexists. reflexivity.
Qed.

Lemma checkGroups_error (c : Compiled) (gs : list (string * RuleGroup)) (e : Error) :
  checkGroups c gs = Throw e -> exists message, e = LexError message.
Proof.
  induction gs as [|[k g] gs IH]; simpl; [discriminate|].
  destruct (checkGroup c (resolve (ruleGroupAll c) g)) as [[]|e'] eqn:E; simpl.
  - exact IH.
  - intro H. injection H as <-. exact (checkGroup_error _ _ _ E).
Qed.

Lemma buildRule_regexp (spec : Spec) (group : string) (rx : RegExp) :
  asRx (at_ spec 1) = Some rx ->
  buildRule spec group
  = if String.eqb (flags rx) "vy"
    then Ok {| rule_name := spec0 spec; rule_rx := rx;
               rule_action := specAction (Some spec); rule_group := group;
               rule_push := specPush spec; rule_pop := specPop spec |}
    else Throw (LexError ("invald regex flags for " ++ id group (spec0 spec))).
Proof.
  intro H. unfold buildRule. rewrite H. cbv beta iota zeta delta [bind].
  now rewrite flags_check.
Qed.

Lemma buildRule_literal (spec : Spec) (group : string) :
  asRx (at_ spec 1) = None -> plainLiteral (spec0 spec) = true ->
  buildRule spec group
  = Ok {| rule_name := spec0 spec;
          rule_rx := regexVY (if isEmptyString (spec0 spec) then "(?:)"
                              else rxEsc (spec0 spec))
                             (literal (spec0 spec));
          rule_action := specAction (Some spec); rule_group := group;
          rule_push := specPush spec; rule_pop := specPop spec |}.
Proof.
  intros H Hp. unfold buildRule, toRx, newRegExpVY.
  rewrite H, (parse_rxEsc _ Hp). cbv beta iota zeta delta [bind].
  rewrite flags_check. cbn [flags regexVY].
  replace (isEmptyString (rxEsc (spec0 spec)))
    with (isEmptyString (spec0 spec)); [reflexivity|].
  unfold rxEsc. destruct (spec0 spec) as [|a str]; [reflexivity|].
  cbn. now destruct (rxEscaped a).
Qed.

Lemma literal_exec (src str s : string) (i : nat) (m : string) (e : nat) :
  exec (regexVY src (literal str)) s i = Some (m, e)
  <-> i <= String.length s /\ m = str /\ e = i + String.length str
      /\ String.substring i (String.length str) s = str.
Proof.
  unfold exec. simpl pattern. rewrite literal_ends.
  destruct (String.length s <? i) eqn:L.
  - apply Nat.ltb_lt in L. split; [discriminate | intros [H _]; lia].
  - apply Nat.ltb_ge in L. destruct (occursAt str s i) eqn:O.
    + destruct (occursAt_substring str s i L O) as [Hsub Hlen].
      assert (Hs : slice s i (i + String.length str) = str).
      { unfold slice. now replace (i + String.length str - i)
          with (String.length str) by lia. }
      rewrite Hs. split.
      * intro H. injection H as <- <-. auto.
      * intros [_ [-> [-> _]]]. reflexivity.
    + split; [discriminate|]. intros [_ [_ [_ Hsub]]].
      apply substring_occursAt in Hsub. rewrite Hsub in O. discriminate.
Qed.

Lemma compileLexer_error (specs : Specs) (opt : bool) (built : Compiled) (e : Error) :
  buildGroups specs [] [] = Ok built ->
  compileLexer specs opt = Throw e -> exists message, e = LexError message.
Proof.
  unfold compileLexer, buildRules. intros B. rewrite B.
  cbv beta iota zeta delta [bind].
  destruct (checkGroups _ _) as [[]|e'] eqn:K.
  - cbn [rules]. destruct (rules built) as [|[name g] rs]; [|discriminate].
    intro H. injection H as <-. eexists. reflexivity.
  - intro H. injection H as <-. exact (checkGroups_error _ _ _ K).
Qed.

(** C8, as the claim states it, fails: the pattern of one or more digits with
    the flag y alone is sticky, and [compileLexer] refuses it. *)
Lemma sticky_pattern_refused :
  sticky digitsY = true
  /\ compileLexer [("main", [RegExpSpec "NUM" digitsY None])] false
     = Throw (LexError "invald regex flags for NUM in main").
Proof. split; reflexivity. Qed.

(** ** The end of the token sequence *)

Lemma one_newline_loop (createPosQuery : string -> nat -> nat * nat) (fuel : nat) :
  whileLoop createPosQuery numRules ("1" ++ newline) fuel 1 ["main"] = Running.
Proof.
  induction fuel as [|fuel IH]; [reflexivity|].
  cbn [whileLoop]. exact IH.
Qed.

(** C7, at the failing input: for the specs main: NUM, WS and the text of
    the digit 1 and a line feed, the first call of [nextToken()] returns NUM
    "1" and the second never returns, however many turns the loop is given:
    no FINAL token ends the sequence. *)
Theorem final_never_delivered (createPosQuery : string -> nat -> nat * nat)
  (calls fuel : nat) :
  tokenize createPosQuery numSpecs ("1" ++ newline) (2 + calls) (S fuel)
  = Ok ([makeToken createPosQuery ("1" ++ newline) "main" "NUM" "1" 0], Hangs).
Proof.
  unfold tokenize. rewrite numSpecs_compiled.
  cbv beta iota zeta delta [bind]. cbn [compiled tokenizerBuilder snd start].
  change (2 + calls) with (S (S calls)). cbn [tokens].
  assert (N1 : nextToken createPosQuery numRules ("1" ++ newline) (S fuel)
                 (lex ["main"])
               = Returns (makeToken createPosQuery ("1" ++ newline) "main" "NUM" "1" 0)
                   {| gen_offset := 1; gen_stack := ["main"];
                      gen_pc := AtYield NUM |}) by reflexivity.
  rewrite N1.
  assert (N2 : nextToken createPosQuery numRules ("1" ++ newline) (S fuel)
                 {| gen_offset := 1; gen_stack := ["main"]; gen_pc := AtYield NUM |}
               = NoReturn).
  { unfold nextToken, next. cbn [gen_pc gen_offset gen_stack].
    change (afterYield NUM ["main"]) with ["main"].
    now rewrite one_newline_loop. }
  now rewrite N2.
Qed.

(** Once the FINAL token is delivered, every call of [nextToken()] throws
    LexEndedError. *)
Lemma exhausted_after_FINAL (createPosQuery : string -> nat -> nat * nat)
  (c : Compiled) (s : string) (fuel fuel' : nat) (offset : nat)
  (stack : list string) :
  let g := {| gen_offset := offset; gen_stack := stack; gen_pc := AtFinal |} in
  nextToken createPosQuery c s fuel g = Throws LexEndedError (finished g)
  /\ nextToken createPosQuery c s fuel' (finished g)
     = Throws LexEndedError (finished g).
Proof. split; reflexivity. Qed.

(** ** The debug flag *)

(** C9, at the failing input: an assignment to [lexer.dbg] changes nothing;
    after [lexer.dbg = true] a lexer compiled with debugging off still reads
    [false]. *)
Theorem set_dbg_ignored (specs : Specs) (lexer : Lexer) (opt : bool) :
  get_dbg (set_dbg lexer opt) = get_dbg lexer
  /\ (compileLexer specs false = Ok lexer ->
      get_dbg (set_dbg lexer true) = false).
Proof.
  split; [reflexivity|]. intro H. apply compileLexer_ok in H.
  now destruct H as [_ [_ H]].
Qed.

(** The debug flag of the lexer of [numSpecs], compiled with debugging off,
    after [lexer.dbg = true]. *)
Lemma set_dbg_ignored_witness :
  get_dbg (set_dbg {| specs := numSpecs; compiled := numRules; start := "main";
                      dbg := false |} true) = false.
Proof.
  exact (proj2 (set_dbg_ignored numSpecs _ true) (numSpecs_compiled false)).
Defined.

(** ** The group of a token *)

(** C10: the token a rule makes of its match, before the action of the rule
    sees it, carries the group of the rule, which is the group the rule was
    declared in: the name of the group of the spec it was compiled from, and
    "ALL" for INVALID and for every rule of [ruleGroupAll], whatever context
    is at the front of the stack. *)
Theorem token_group_is_rule_group (createPosQuery : string -> nat -> nat * nat)
  (specs : Specs) (opt : bool) (lexer : Lexer) (s : string) (offset : nat)
  (ctx : string) (st : list string) (token : Token) (rule : Rule) (e : nat) :
  compileLexer specs opt = Ok lexer ->
  whileBody createPosQuery (compiled lexer) s offset (ctx :: st)
  = TurnYield token rule e ->
  let candidate :=
    makeToken createPosQuery s (rule_group rule) (rule_name rule)
      (slice s offset e) offset in
  rule_action rule candidate = Some token
  /\ tok_group candidate = rule_group rule
  /\ (rule = INVALID \/ exists k, origin specs k rule)
  /\ (forall k, origin specs k rule -> tok_group candidate = k)
  /\ (rule = INVALID -> tok_group candidate = "ALL")
  /\ (In rule (ruleGroupAll (compiled lexer)) -> tok_group candidate = "ALL").
Proof.
  intros Hc Hw candidate.
  destruct (compileLexer_ok _ _ _ Hc) as [Hb _].
  pose proof (buildRules_compiledFrom _ _ Hb) as CF.
  destruct (getRules (compiled lexer) ctx) as [curr|] eqn:Hg;
    [rewrite (whileBody_group createPosQuery _ s offset ctx st curr Hg) in Hw
    |rewrite (whileBody_no_group createPosQuery _ s offset ctx st Hg) in Hw;
     discriminate].
  destruct (tryRules createPosQuery s (curr ++ ruleGroupAll (compiled lexer)) offset)
    as [[[r t] e']|] eqn:T; [|discriminate].
  injection Hw as -> -> ->.
  pose proof (tryRules_reachable createPosQuery _ s ctx curr offset rule token e Hg T)
    as Hr.
  destruct (tryRules_some _ _ _ _ _ _ _ T) as [_ [_ [_ [_ Hone]]]].
  destruct (tryRule_some _ _ _ _ _ _ Hone) as [_ [_ Ha]].
  split; [exact Ha|]. split; [reflexivity|].
  split; [exact (reachable_origin _ _ _ CF Hr)|].
  split; [|split].
  - intros k Ho. exact (origin_group _ _ _ Ho).
  - intros ->. reflexivity.
  - intro Hin. destruct CF as [[all [Eall Hall]] _ _ _].
    rewrite Eall in Hin. apply in_app_or in Hin. destruct Hin as [Hin|[<-|[]]].
    + rewrite Forall_forall in Hall. exact (origin_group _ _ _ (Hall rule Hin)).
    + reflexivity.
Qed.

(** The token BLANK of the group ALL, yielded in the context main. *)
Lemma token_group_is_rule_group_witness :
  let candidate := makeToken noPos " " (rule_group BLANK) (rule_name BLANK)
                     (slice " " 0 1) 0 in
  rule_action BLANK candidate = Some (makeToken noPos " " "ALL" "BLANK" " " 0)
  /\ tok_group candidate = rule_group BLANK
  /\ (BLANK = INVALID \/ exists k, origin blankSpecs k BLANK)
  /\ (forall k, origin blankSpecs k BLANK -> tok_group candidate = k)
  /\ (BLANK = INVALID -> tok_group candidate = "ALL")
  /\ (In BLANK (ruleGroupAll blankRules) -> tok_group candidate = "ALL").
Proof.
  apply (token_group_is_rule_group noPos blankSpecs false
           {| specs := blankSpecs; compiled := blankRules; start := "main";
              dbg := false |} " " 0 "main" []
           (makeToken noPos " " "ALL" "BLANK" " " 0) BLANK 1).
  - reflexivity.
  - reflexivity.
Defined.

(** ** Further properties of the scan *)

(** A turn of the loop that yields moves the offset on by at least one
    character, and never past the end of the text. *)
Theorem yield_consumes (createPosQuery : string -> nat -> nat * nat)
  (c : Compiled) (s : string) (offset : nat) (stack : list string)
  (token : Token) (rule : Rule) (e : nat) :
  whileBody createPosQuery c s offset stack = TurnYield token rule e ->
  offset < e <= String.length s.
Proof.
  destruct stack as [|ctx st]; [discriminate|].
  destruct (getRules c ctx) as [curr|] eqn:Hg;
    [rewrite (whileBody_group createPosQuery c s offset ctx st curr Hg)
    |rewrite (whileBody_no_group createPosQuery c s offset ctx st Hg);
     discriminate].
  destruct (tryRules createPosQuery s (curr ++ ruleGroupAll c) offset)
    as [[[r t] e']|] eqn:T; [|discriminate].
  intro H. injection H as <- <- <-.
  destruct (tryRules_some _ _ _ _ _ _ _ T) as [_ [_ [_ [_ Hone]]]].
  now destruct (tryRule_some _ _ _ _ _ _ Hone).
Qed.

(** The first turn of the loop on "12 34": NUM "12", up to offset 2. *)
Lemma yield_consumes_witness : 0 < 2 <= String.length "12 34".
Proof.
  apply (yield_consumes noPos numRules "12 34" 0 ["main"]
           (makeToken noPos "12 34" "main" "NUM" "12" 0) NUM 2).
  reflexivity.
Defined.

(** The test of [buildRule] on the text of a RegExp holds for the flags "vy"
    and for no others: a pattern with further flags, or without v, is refused
    though it be sticky. *)
Theorem vy_flags_only (rx : RegExp) :
  endsWith (toString rx) "/vy" = true
  <-> hasIndices rx = false /\ global rx = false /\ ignoreCase rx = false
      /\ multiline rx = false /\ dotAll rx = false /\ unicode rx = false
      /\ unicodeSets rx = true /\ sticky rx = true.
Proof.
  rewrite flags_check. split.
  - intro H. apply String.eqb_eq, flags_vy in H. tauto.
  - intros [H1 [H2 [H3 [H4 [H5 [H6 [H7 H8]]]]]]]. unfold flags.
    now rewrite H1, H2, H3, H4, H5, H6, H7, H8.
Qed.

(** A literal with a hyphen: [rxEsc] escapes the hyphen, the RegExp
    constructor refuses the escape under the flag v, and [compileLexer]
    throws the SyntaxError of the constructor. *)
Lemma hyphen_literal_refused :
  rxEsc "a-b" = "a\-b"
  /\ compileLexer [("main", [StringSpec "a-b" None])] false
     = Throw SyntaxError.
Proof. split; reflexivity. Qed.

(** ** Runs of the generator *)

Section RunFacts.

Variable createPosQuery : string -> nat -> nat * nat.
Variable c : Compiled.
Variable s : string.

(** What the [while] loop comes to, from its test. *)
Lemma whileLoop_cases (fuel i : nat) (st : list string) :
  whileLoop createPosQuery c s fuel i st = Running
  \/ ((String.length s <= i \/ st = [])
      /\ whileLoop createPosQuery c s fuel i st = finalYield createPosQuery s i st)
  \/ (exists ctx st0 curr rule token e,
        st = ctx :: st0 /\ i < String.length s
        /\ getRules c ctx = Some curr
        /\ tryRules createPosQuery s (curr ++ ruleGroupAll c) i
           = Some (rule, token, e)
        /\ whileLoop createPosQuery c s fuel i st
           = Value token {| gen_offset := e; gen_stack := st;
                            gen_pc := AtYield rule |})
  \/ (exists ctx st0,
        st = ctx :: st0 /\ i < String.length s /\ getRules c ctx = None
        /\ whileLoop createPosQuery c s fuel i st
           = Raised (if inherited ctx then TypeError
                     else InternalError "assertion failed: value not defined")
               {| gen_offset := i; gen_stack := st; gen_pc := Finished |}).
Proof.
  induction fuel as [|fuel IH]; [now left|].
  cbn [whileLoop]. destruct (i <? String.length s) eqn:L.
  - apply Nat.ltb_lt in L.
    destruct st as [|ctx st0]; [right; left; split; [now right | reflexivity]|].
    destruct (getRules c ctx) as [curr|] eqn:G.
    + rewrite (whileBody_group createPosQuery c s i ctx st0 curr G).
      destruct (tryRules createPosQuery s (curr ++ ruleGroupAll c) i)
        as [[[rule token] e]|] eqn:T.
      * right. right. left. exists ctx, st0, curr, rule, token, e. now repeat split.
      * exact IH.
    + rewrite (whileBody_no_group createPosQuery c s i ctx st0 G).
      right. right. right. exists ctx, st0. now repeat split.
  - apply Nat.ltb_ge in L. right. left. split; [now left | reflexivity].
Qed.

Lemma tokens_AtFinal (calls fuel i : nat) (st : list string) :
  tokens createPosQuery c s (S calls) fuel
    {| gen_offset := i; gen_stack := st; gen_pc := AtFinal |} = ([], Ended).
Proof. reflexivity. Qed.

(** A run of [nextToken()] calls that ends in LexEndedError returned the
    tokens of a scan, then FINAL. *)
Lemma tokens_Ended : forall calls fuel i st ts,
  tokens createPosQuery c s calls fuel (atLoop i st) = (ts, Ended) ->
  exists ts' j st',
    ts = ts' ++ [FINAL createPosQuery s j]
    /\ Scanned createPosQuery c s i st ts' j st'
    /\ (String.length s <= j \/ st' = []).
Proof.
  induction calls as [|calls IH]; intros fuel i st ts H; [discriminate|].
  cbn [tokens] in H. unfold nextToken, next in H.
  cbn [atLoop gen_pc gen_offset gen_stack] in H.
  destruct (whileLoop_cases fuel i st)
    as [W|[[Hend W]|[[ctx [st0 [curr [rule [token [e [-> [Hi [Hg [Ht W]]]]]]]]]]
                    |[ctx [st0 [-> [Hi [Hg W]]]]]]]];
    rewrite W in H;
    [discriminate| | |destruct (inherited ctx); discriminate].
  - unfold finalYield in H. destruct calls as [|calls]; [discriminate|].
    rewrite tokens_AtFinal in H. injection H as <-.
    exists [], i, st. split; [reflexivity|]. split; [constructor | exact Hend].
  - rewrite tokens_AtYield in H.
    destruct (tokens createPosQuery c s calls fuel
                (atLoop e (afterYield rule (ctx :: st0)))) as [rest ending] eqn:R.
    injection H as <- ->.
    destruct (IH _ _ _ _ R) as [ts' [j [st' [-> [Hs Hend]]]]].
    exists (token :: ts'), j, st'. split; [reflexivity|]. split; [|exact Hend].
    now apply (Scanned_step createPosQuery c s i ctx st0 curr rule token e).
Qed.

(** With compiled groups only on the stack, and push targets that are
    compiled groups, no call of [nextToken()] throws. *)
Lemma tokens_no_fault :
  (forall r p, reachable c r -> rule_push r = Some p -> getRules c p <> None) ->
  forall calls fuel i st ts fault,
  stackOk c st ->
  tokens createPosQuery c s calls fuel (atLoop i st) <> (ts, Failed fault).
Proof.
  intros Hpush. induction calls as [|calls IH]; intros fuel i st ts fault Hst H;
    [discriminate|].
  cbn [tokens] in H. unfold nextToken, next in H.
  cbn [atLoop gen_pc gen_offset gen_stack] in H.
  destruct (whileLoop_cases fuel i st)
    as [W|[[Hend W]|[[ctx [st0 [curr [rule [token [e [-> [Hi [Hg [Ht W]]]]]]]]]]
                    |[ctx [st0 [-> [Hi [Hg W]]]]]]]].
  - rewrite W in H. discriminate.
  - rewrite W in H. unfold finalYield in H.
    destruct calls as [|calls]; [discriminate|].
    rewrite tokens_AtFinal in H. discriminate.
  - rewrite W, tokens_AtYield in H.
    destruct (tokens createPosQuery c s calls fuel
                (atLoop e (afterYield rule (ctx :: st0)))) as [rest ending] eqn:R.
    injection H as _ ->. apply (IH _ _ _ _ _ (afterYield_stackOk c rule (ctx :: st0)
      (fun p Hp => Hpush rule p
         (tryRules_reachable createPosQuery c s ctx curr i rule token e Hg Ht) Hp)
      Hst) R).
  - inversion Hst as [|? ? Hctx _]; subst. contradiction.
Qed.

(** A generator that threw is done: the calls after it throw LexEndedError
    and leave it as it is. *)
Lemma nextToken_Throws (fuel : nat) (g g' : Generator) (e : Error) :
  nextToken createPosQuery c s fuel g = Throws e g' -> gen_pc g' = Finished.
Proof.
  unfold nextToken, next. destruct g as [i st pc]. cbn [gen_pc gen_offset gen_stack].
  assert (L : forall st1,
            match whileLoop createPosQuery c s fuel i st1 with
            | Value token g0 => Returns token g0
            | Done g0 => Throws LexEndedError g0
            | Raised e0 g0 => Throws e0 g0
            | Running => NoReturn
            end = Throws e g' -> gen_pc g' = Finished).
  { intros st1 H.
    destruct (whileLoop_cases fuel i st1)
      as [W|[[_ W]|[[ctx [st0 [curr [rule [token [e0 [_ [_ [_ [_ W]]]]]]]]]]
                    |[ctx [st0 [_ [_ [_ W]]]]]]]];
      rewrite W in H; try discriminate H.
    injection H as _ <-. reflexivity. }
  destruct pc as [|rule| |].
  - apply L.
  - apply L.
  - intro H. injection H as _ <-. reflexivity.
  - intro H. injection H as _ <-. reflexivity.
Qed.

End RunFacts.

Lemma Scanned_bound (createPosQuery : string -> nat -> nat * nat) (c : Compiled)
  (s : string) (i : nat) (st : list string) (ts : list Token) (j : nat)
  (st' : list string) :
  Scanned createPosQuery c s i st ts j st' ->
  i <= String.length s -> j <= String.length s /\ length ts <= j - i.
Proof.
  induction 1 as [i st|i ctx st curr rule token e ts j st' Hi Hg Ht Hs IH];
    intro Hle.
  - split; [exact Hle | simpl; lia].
  - destruct (tryRules_some _ _ _ _ _ _ _ Ht) as [_ [_ [_ [_ Hone]]]].
    destruct (tryRule_some _ _ _ _ _ _ Hone) as [Hie _].
    pose proof (Scanned_le _ _ _ _ _ _ _ _ Hs) as Hej.
    destruct IH as [IH1 IH2]; [lia|]. split; [exact IH1 | simpl; lia].
Qed.

(** A token sequence that ends, ends with the FINAL token: when the calls of
    [nextToken()] reach LexEndedError, the tokens returned are those of the
    turns of the loop, at most one per character scanned, and then FINAL;
    the offset of FINAL is within the text, and it is the length of the text
    unless the stack was empty. *)
Theorem ended_run_is_scan (createPosQuery : string -> nat -> nat * nat)
  (c : Compiled) (s : string) (calls fuel : nat) (stack : list string)
  (ts : list Token) :
  tokens createPosQuery c s calls fuel (lex stack) = (ts, Ended) ->
  exists ts' j stack',
    ts = ts' ++ [makeToken createPosQuery s "FINAL" "FINAL" "" j]
    /\ Scanned createPosQuery c s 0 stack ts' j stack'
    /\ j <= String.length s
    /\ length ts' <= j
    /\ (j = String.length s \/ stack' = []).
Proof.
  intro H. destruct (tokens_Ended createPosQuery c s calls fuel 0 stack ts H)
    as [ts' [j [st' [-> [Hs Hend]]]]].
  destruct (Scanned_bound _ _ _ _ _ _ _ _ Hs (Nat.le_0_l _)) as [Hj Hlen].
  exists ts', j, st'. repeat split; try assumption; try lia.
  destruct Hend as [Hend|Hend]; [left; lia | now right].
Qed.

(** Seven calls on "12 34", for the lexer of [numSpecs]. *)
Lemma ended_run_is_scan_witness :
  exists ts' j stack',
    [makeToken noPos "12 34" "main" "NUM" "12" 0;
     makeToken noPos "12 34" "ALL" "INVALID" " 34" 2;
     makeToken noPos "12 34" "FINAL" "FINAL" "" 5]
    = ts' ++ [makeToken noPos "12 34" "FINAL" "FINAL" "" j]
    /\ Scanned noPos numRules "12 34" 0 ["main"] ts' j stack'
    /\ j <= String.length "12 34"
    /\ length ts' <= j
    /\ (j = String.length "12 34" \/ stack' = []).
Proof.
  apply (ended_run_is_scan noPos numRules "12 34" 7 1 ["main"]).
  reflexivity.
Defined.

(** Once [nextToken()] has thrown, whatever it threw, the generator is done:
    every later call throws LexEndedError and changes nothing. *)
Theorem thrown_generator_is_done (createPosQuery : string -> nat -> nat * nat)
  (c : Compiled) (s : string) (fuel fuel' : nat) (g g' : Generator) (e : Error) :
  nextToken createPosQuery c s fuel g = Throws e g' ->
  nextToken createPosQuery c s fuel' g' = Throws LexEndedError g'.
Proof.
  intro H. apply nextToken_Throws in H. destruct g' as [i st pc].
  simpl in H. subst pc. reflexivity.
Qed.

(** The call after the FINAL token of "12 34", and the call after that. *)
Lemma thrown_generator_is_done_witness :
  nextToken noPos numRules "12 34" 1
    {| gen_offset := 5; gen_stack := []; gen_pc := Finished |}
  = Throws LexEndedError
      {| gen_offset := 5; gen_stack := []; gen_pc := Finished |}.
Proof.
  apply (thrown_generator_is_done noPos numRules "12 34" 1 1
           {| gen_offset := 5; gen_stack := []; gen_pc := AtFinal |} _
           LexEndedError).
  reflexivity.
Defined.

(** A rule that pops the last context ends the scan: after its token the
    stack is empty, and the next token is FINAL at the offset reached,
    whatever is left of the text.  INVALID is such a rule. *)
Theorem pop_of_last_context_ends_scan
  (createPosQuery : string -> nat -> nat * nat) (c : Compiled) (s : string)
  (fuel offset : nat) (ctx : string) (rule : Rule) :
  rule_pop rule = true ->
  rule_push rule = None ->
  next createPosQuery c s (S fuel)
    {| gen_offset := offset; gen_stack := [ctx]; gen_pc := AtYield rule |}
  = Value (makeToken createPosQuery s "FINAL" "FINAL" "" offset)
      {| gen_offset := offset; gen_stack := []; gen_pc := AtFinal |}.
Proof.
  intros Hpop Hpush. unfold next. cbn [gen_pc gen_offset gen_stack].
  unfold afterYield. rewrite Hpop, Hpush. cbn [tl whileLoop].
  destruct (offset <? String.length s); reflexivity.
Qed.

(** After INVALID "x" in the text of x, a line feed and y, with the stack
    [main]. *)
Lemma pop_of_last_context_ends_scan_witness :
  next noPos numRules ("x" ++ newline ++ "y") 1
    {| gen_offset := 1; gen_stack := ["main"]; gen_pc := AtYield INVALID |}
  = Value (makeToken noPos ("x" ++ newline ++ "y") "FINAL" "FINAL" "" 1)
      {| gen_offset := 1; gen_stack := []; gen_pc := AtFinal |}.
Proof.
  apply (pop_of_last_context_ends_scan noPos numRules ("x" ++ newline ++ "y")
           0 1 "main" INVALID).
  - reflexivity.
  - reflexivity.
Defined.

(** The empty text: whatever the rules and the stack, the one token is FINAL
    at offset 0, and the call after it throws LexEndedError. *)
Theorem empty_text_is_FINAL (createPosQuery : string -> nat -> nat * nat)
  (c : Compiled) (stack : list string) (calls fuel : nat) :
  tokens createPosQuery c "" (2 + calls) (S fuel) (lex stack)
  = ([makeToken createPosQuery "" "FINAL" "FINAL" "" 0], Ended).
Proof. reflexivity. Qed.

Lemma identity_rules (specs : Specs) (c : Compiled) :
  compiledFrom specs c -> identityActions specs ->
  forall r, reachable c r -> forall t, rule_action r t = Some t.
Proof.
  intros CF Hid r Hr t.
  destruct (reachable_origin _ _ _ CF Hr) as [->|[k [sg [sp [H1 [H2 H3]]]]]].
  - reflexivity.
  - apply buildRule_ok in H3. destruct H3 as [_ [_ [_ [_ [Ha _]]]]].
    rewrite Ha. exact (Hid k sg sp t H1 H2).
Qed.

Lemma Scanned_pieces (createPosQuery : string -> nat -> nat * nat) (c : Compiled)
  (s : string) (i : nat) (st : list string) (ts : list Token) (j : nat)
  (st' : list string) :
  (forall r, reachable c r -> forall t, rule_action r t = Some t) ->
  Scanned createPosQuery c s i st ts j st' ->
  contiguous i ts j /\ Forall (pieceOf s) ts.
Proof.
  intros Hid.
  induction 1 as [i st|i ctx st curr rule token e ts j st' Hi Hg Ht Hs IH].
  - split; [reflexivity | constructor].
  - pose proof (tryRules_reachable createPosQuery c s ctx curr i rule token e Hg Ht)
      as Hr.
    destruct (tryRules_some _ _ _ _ _ _ _ Ht) as [_ [_ [_ [_ Hone]]]].
    destruct (tryRule_some _ _ _ _ _ _ Hone) as [Hie [_ Ha]].
    rewrite (Hid rule Hr) in Ha. injection Ha as <-.
    assert (L : String.length (slice s i e) = e - i) by (apply slice_length; lia).
    destruct IH as [IH1 IH2]. split.
    + cbn [contiguous makeToken tok_offset tok_text]. split; [reflexivity|].
      rewrite L. now replace (i + (e - i)) with e by lia.
    + constructor; [|exact IH2]. unfold pieceOf.
      cbn [makeToken tok_offset tok_text]. rewrite L. repeat split.
      * intro E. rewrite E in L. simpl in L. lia.
      * lia.
Qed.

(** With actions that return their token, the tokens before FINAL are
    non-empty pieces of the text, each found at its own offset, and they
    follow one another from offset 0 to the offset of FINAL without gap or
    overlap, line terminators or not. *)
Theorem tokens_are_pieces (createPosQuery : string -> nat -> nat * nat)
  (specs : Specs) (opt b : bool) (lexer : Lexer) (s : string) (calls fuel : nat)
  (ts : list Token) :
  compileLexer specs opt = Ok lexer ->
  identityActions specs ->
  tokens createPosQuery (compiled lexer) s calls fuel
    (snd (tokenizerBuilder lexer b)) = (ts, Ended) ->
  exists ts' j,
    ts = ts' ++ [makeToken createPosQuery s "FINAL" "FINAL" "" j]
    /\ contiguous 0 ts' j
    /\ Forall (pieceOf s) ts'.
Proof.
  intros Hc Hid H. destruct (compileLexer_ok _ _ _ Hc) as [Hb _].
  pose proof (buildRules_compiledFrom _ _ Hb) as CF.
  destruct (tokens_Ended createPosQuery (compiled lexer) s calls fuel 0
              [start lexer] ts H) as [ts' [j [st' [-> [Hs _]]]]].
  exists ts', j. split; [reflexivity|].
  exact (Scanned_pieces _ _ _ _ _ _ _ _ (identity_rules _ _ CF Hid) Hs).
Qed.

(** Four calls on "ab", for the lexer of [popSpecs]. *)
Lemma tokens_are_pieces_witness :
  exists ts' j,
    [makeToken noPos "ab" "main" "a" "a" 0;
     makeToken noPos "ab" "FINAL" "FINAL" "" 1]
    = ts' ++ [makeToken noPos "ab" "FINAL" "FINAL" "" j]
    /\ contiguous 0 ts' j
    /\ Forall (pieceOf "ab") ts'.
Proof.
  apply (tokens_are_pieces noPos popSpecs false false popLexer "ab" 4 1).
  - reflexivity.
  - exact popSpecs_identity.
  - reflexivity.
Defined.

(** ** More on compiling *)

Lemma assign_head (rs : Rules) (n : string) (v : RuleGroup) :
  hd_error (map fst (assign rs n v))
  = match rs with
    | [] => Some n
    | (k, _) :: _ => Some k
    end.
Proof.
  destruct rs as [|[k g] rs]; [reflexivity|]. simpl.
  destruct (String.eqb k n); reflexivity.
Qed.




Lemma mapM_ok {A B : Type} (f : A -> Result B) (l : list A) :
  (forall a, In a l -> exists b, f a = Ok b) -> exists bs, mapM f l = Ok bs.
Proof.
  induction l as [|a l IH]; intro H; simpl.
  - now exists [].
  - destruct (H a (or_introl eq_refl)) as [b Hb]. rewrite Hb. simpl.
    destruct IH as [bs Hbs]; [intros x Hx; apply H; now right|].
    rewrite Hbs. simpl. now exists (b :: bs).
Qed.

Lemma mapM_ok_inv {A B : Type} (f : A -> Result B) (l : list A) (bs : list B) :
  mapM f l = Ok bs -> forall a, In a l -> exists b, f a = Ok b.
Proof.
  intros H a Ha. apply mapM_Forall2 in H. induction H as [|x y l bs Hxy H IH].
  - contradiction.
  - destruct Ha as [<-|Ha]; [now exists y | now apply IH].
Qed.

Lemma buildGroups_ok : forall entries rs all,
  (forall name specGroup spec, In (name, specGroup) entries -> In spec specGroup ->
   exists r, buildRule spec name = Ok r) ->
  exists c, buildGroups entries rs all = Ok c.
Proof.
  induction entries as [|[name sg] entries IH]; intros rs all H; simpl.
  - eexists. reflexivity.
  - destruct (mapM_ok (fun spec => buildRule spec name) sg) as [bs Hbs].
    { intros sp Hsp. exact (H name sg sp (or_introl eq_refl) Hsp). }
    rewrite Hbs. cbv beta iota zeta delta [bind].
    destruct (String.eqb name "ALL"); apply IH;
      intros n g sp Hin Hsp; exact (H n g sp (or_intror Hin) Hsp).
Qed.

Lemma buildGroups_ok_inv : forall entries rs all c,
  buildGroups entries rs all = Ok c ->
  forall name specGroup spec, In (name, specGroup) entries -> In spec specGroup ->
  exists r, buildRule spec name = Ok r.
Proof.
  induction entries as [|[n sg] entries IH]; intros rs all c H name g sp Hin Hsp;
    [contradiction|].
  simpl in H.
  destruct (mapM (fun spec => buildRule spec n) sg) as [bs|] eqn:M; [|discriminate].
  cbv beta iota zeta delta [bind] in H. destruct Hin as [Hin|Hin].
  - injection Hin as -> ->. exact (mapM_ok_inv _ _ _ M sp Hsp).
  - destruct (String.eqb n "ALL"); exact (IH _ _ _ H name g sp Hin Hsp).
Qed.

Lemma buildGroups_has (k : string) : forall entries rs all c,
  buildGroups entries rs all = Ok c ->
  In k (map fst entries) \/ lookup rs k <> None ->
  lookup (rules c) k <> None.
Proof.
  induction entries as [|[name sg] entries IH]; intros rs all c H Hk; simpl in H.
  - injection H as <-. destruct Hk as [[]|Hk]. exact Hk.
  - destruct (mapM (fun spec => buildRule spec name) sg) as [bs|]; [|discriminate].
    cbv beta iota zeta delta [bind] in H.
    assert (A : forall v, In k (map fst entries) \/ lookup (assign rs name v) k <> None).
    { intro v. rewrite lookup_assign. destruct (String.eqb name k) eqn:E.
      - right. discriminate.
      - apply String.eqb_neq in E. destruct Hk as [[Hk|Hk]|Hk].
        + simpl in Hk. contradiction.
        + now left.
        + now right. }
    destruct (String.eqb name "ALL"); exact (IH _ _ _ H (A _)).
Qed.


Lemma checkGroup_complete (c : Compiled) (l : list Rule) :
  (forall r p, In r l -> rule_push r = Some p -> member c p <> Undefined) ->
  checkGroup c l = Ok tt.
Proof.
  induction l as [|r l IH]; intro H; simpl; [reflexivity|].
  assert (IH' : checkGroup c l = Ok tt).
  { apply IH. intros r' p Hr. apply H. now right. }
  destruct (rule_push r) as [p|] eqn:P; [|exact IH'].
  destruct (member c p) eqn:G; [|exact IH'|exact IH'].
  exfalso. exact (H r p (or_introl eq_refl) P G).
Qed.

Lemma checkGroups_complete (c : Compiled) (gs : list (string * RuleGroup)) :
  (forall k g r p, In (k, g) gs -> In r (resolve (ruleGroupAll c) g) ->
   rule_push r = Some p -> member c p <> Undefined) ->
  checkGroups c gs = Ok tt.
Proof.
  induction gs as [|[k g] gs IH]; intro H; simpl; [reflexivity|].
  rewrite (checkGroup_complete c (resolve (ruleGroupAll c) g)).
  - simpl. apply IH. intros k' g' r p Hin. apply (H k' g' r p). now right.
  - intros r p. apply (H k g r p). now left.
Qed.



(** The rules of the table [buildRules] checks come from the specs, INVALID
    apart. *)
Lemma table_rule_origin (specs : Specs) (built : Compiled) (k : string)
  (g : RuleGroup) (r : Rule) :
  tableInv specs (rules built) (ruleGroupAll built) ->
  In (k, g) (rules built) ->
  In r (resolve (ruleGroupAll built ++ [INVALID]) g) ->
  r = INVALID \/ origin specs k r.
Proof.
  intros [I1 I2 I3 I4] Hin Hr.
  destruct (String.eqb k "ALL") eqn:E.
  - apply String.eqb_eq in E. subst k. rewrite (I1 g Hin) in Hr. simpl in Hr.
    apply in_app_or in Hr. destruct Hr as [Hr|[<-|[]]]; [|now left].
    right. rewrite Forall_forall in I3. now apply I3.
  - apply String.eqb_neq in E. destruct (I2 k g Hin E) as [grp [-> F]].
    simpl in Hr. right. rewrite Forall_forall in F. now apply F.
Qed.

Lemma Forall2_In_l {A B : Type} (P : A -> B -> Prop) (l : list A) (bs : list B) :
  Forall2 P l bs -> forall a, In a l -> exists b, In b bs /\ P a b.
Proof.
  induction 1 as [|a b l bs Hab H IH]; intros a' Ha; [contradiction|].
  destruct Ha as [<-|Ha].
  - exists b. split; [now left | assumption].
  - destruct (IH a' Ha) as [b' [Hb' Pb']]. exists b'. split; [now right | assumption].
Qed.

Lemma NoDup_fst_unique {A : Type} (l : list (string * A)) (k : string) (a b : A) :
  NoDup (map fst l) -> In (k, a) l -> In (k, b) l -> a = b.
Proof.
  induction l as [|[k' x] l IH]; intros Hnd Ha Hb; [contradiction|].
  simpl in Hnd. inversion Hnd as [|? ? Hnot Hnd']; subst.
  destruct Ha as [Ha|Ha], Hb as [Hb|Hb].
  - injection Ha as _ <-. now injection Hb as _ <-.
  - injection Ha as -> _. exfalso. apply Hnot. now apply (in_map fst) in Hb.
  - injection Hb as -> _. exfalso. apply Hnot. now apply (in_map fst) in Ha.
  - now apply IH.
Qed.

(** Every spec of a compiled table has its rule among the rules the scan
    loop can meet. *)
Lemma spec_rule_reachable (specs : Specs) (c : Compiled) (name : string)
  (specGroup : list Spec) (spec : Spec) :
  buildRules specs = Ok c -> NoDup (map fst specs) ->
  In (name, specGroup) specs -> In spec specGroup ->
  exists r, buildRule spec name = Ok r /\ reachable c r.
Proof.
  intros Hb Hnd Hin Hsp.
  destruct (buildRules_declared _ _ Hb Hnd) as [[all [Eall [Hall _]]] Hown].
  destruct (String.eqb name "ALL") eqn:E.
  - apply String.eqb_eq in E. subst name.
    destruct (Hall (in_map fst _ _ Hin)) as [sg [Hsg F]].
    rewrite (NoDup_fst_unique _ _ _ _ Hnd Hin Hsg) in Hsp.
    destruct (Forall2_In_l _ _ _ F spec Hsp) as [r [Hr Hbr]].
    exists r. split; [exact Hbr|]. left. rewrite Eall. apply in_or_app. now left.
  - apply String.eqb_neq in E.
    destruct (Hown name specGroup Hin E) as [group [Hg [sg [Hsg F]]]].
    rewrite (NoDup_fst_unique _ _ _ _ Hnd Hin Hsg) in Hsp.
    destruct (Forall2_In_l _ _ _ F spec Hsp) as [r [Hr Hbr]].
    exists r. split; [exact Hbr|]. right. now exists name, group.
Qed.

Lemma numSpecs_buildable : buildable numSpecs.
Proof.
  intros name sg sp [H|[]] Hsp. injection H as <- <-.
  destruct Hsp as [<-|[<-|[]]]; eexists; reflexivity.
Qed.

Lemma numSpecs_pushesKnown : pushesKnown numSpecs.
Proof.
  intros name sg sp p [H|[]] Hsp. injection H as <- <-.
  destruct Hsp as [<-|[<-|[]]]; discriminate.
Qed.



Lemma specPop_no_push (spec : Spec) : specPop spec = true -> specPush spec = None.
Proof.
  destruct spec as [n a|n a|n p a|n rx a|n rx a|n rx p a]; destruct a;
    cbv; intro H; try discriminate H; reflexivity.
Qed.

(** No rule of a compiled lexer pops and pushes: the token of a rule takes
    the front context off the stack, or puts one context on it, or leaves the
    stack as it is. *)
Theorem pop_or_push_never_both (specs : Specs) (opt : bool) (lexer : Lexer)
  (rule : Rule) (stack : list string) :
  compileLexer specs opt = Ok lexer ->
  reachable (compiled lexer) rule ->
  (rule_pop rule = true -> rule_push rule = None)
  /\ ((rule_pop rule = true /\ afterYield rule stack = tl stack)
      \/ (exists p, rule_push rule = Some p /\ p <> ""
                    /\ afterYield rule stack = p :: stack)
      \/ afterYield rule stack = stack).
Proof.
  intros Hc Hr. destruct (compileLexer_ok _ _ _ Hc) as [Hb _].
  pose proof (buildRules_compiledFrom _ _ Hb) as CF.
  assert (P : rule_pop rule = true -> rule_push rule = None).
  { destruct (reachable_origin _ _ _ CF Hr) as [->|[k [sg [sp [_ [_ H]]]]]];
      [reflexivity|].
    apply buildRule_ok in H. destruct H as [_ [_ [Hpop [Hpush _]]]].
    rewrite Hpop, Hpush. apply specPop_no_push. }
  split; [exact P|]. unfold afterYield.
  destruct (rule_pop rule) eqn:Pop.
  - left. rewrite (P eq_refl). now split.
  - destruct (rule_push rule) as [p|]; [|now right; right].
    destruct p as [|ch p]; [now right; right|].
    right. left. exists (String ch p). repeat split. discriminate.
Qed.

(** INVALID, in the lexer of [numSpecs], with the stack [main]. *)
Lemma pop_or_push_never_both_witness :
  (rule_pop INVALID = true -> rule_push INVALID = None)
  /\ ((rule_pop INVALID = true /\ afterYield INVALID ["main"] = tl ["main"])
      \/ (exists p, rule_push INVALID = Some p /\ p <> ""
                    /\ afterYield INVALID ["main"] = p :: ["main"])
      \/ afterYield INVALID ["main"] = ["main"]).
Proof.
  apply (pop_or_push_never_both numSpecs false
           {| specs := numSpecs; compiled := numRules; start := "main";
              dbg := false |}).
  - reflexivity.
  - left. left. reflexivity.
Defined.

(** ** Escaping *)

Lemma unEsc_plain (ch : ascii) (str : string) :
  ch <> "\"%char -> unEsc (String ch str) = String ch (unEsc str).
Proof.
  intro H. destruct ch as [[] [] [] [] [] [] [] []]; try reflexivity.
  now contradiction H.
Qed.

Lemma unEsc_rxEsc (str : string) : unEsc (rxEsc str) = str.
Proof.
  induction str as [|ch str IH]; [reflexivity|]. cbn [rxEsc].
  destruct (rxEscaped ch) eqn:E.
  - cbn [unEsc]. now rewrite IH.
  - destruct (syntax_escaped ch E) as [_ Hb]. rewrite (unEsc_plain _ _ Hb).
    now rewrite IH.
Qed.

(** [rxEsc] puts a backslash before each character of its class and does
    nothing else: taking the backslashes off gives the string back, the
    result is longer by the number of escaped characters, and two strings
    with the same result are the same. *)
Theorem rxEsc_round_trip (str : string) :
  unEsc (rxEsc str) = str
  /\ String.length (rxEsc str) = String.length str + escapes str
  /\ (forall str', rxEsc str = rxEsc str' -> str = str').
Proof.
  split; [apply unEsc_rxEsc|]. split.
  - induction str as [|ch str IH]; [reflexivity|]. cbn [rxEsc escapes].
    destruct (rxEscaped ch); simpl; rewrite IH; lia.
  - intros str' H. rewrite <- (unEsc_rxEsc str), <- (unEsc_rxEsc str').
    now rewrite H.
Qed.

Lemma parse_rxEsc_refused (str : string) :
  plainLiteral str = false -> parseLiteral (rxEsc str) = InvalidEscape.
Proof.
  unfold plainLiteral. induction str as [|ch str IH]; intro H; [discriminate|].
  simpl in H. cbn [rxEsc]. unfold overEscaped in H.
  destruct (rxEscaped ch) eqn:E.
  - cbn [parseLiteral]. simpl in H. destruct (identityEscape ch); [|reflexivity].
    simpl in H. now rewrite (IH H).
  - simpl in H. destruct (syntax_escaped ch E) as [Hs Hb].
    assert (P : parseLiteral (String ch (rxEsc str))
                = if isSyntaxCharacter ch then Unsupported
                  else seqChar ch (parseLiteral (rxEsc str))).
    { destruct ch as [[] [] [] [] [] [] [] []]; try reflexivity.
      now contradiction Hb. }
    now rewrite P, Hs, (IH H).
Qed.

Lemma rxEsc_empty (str : string) :
  isEmptyString (rxEsc str) = isEmptyString str.
Proof.
  destruct str as [|a str]; [reflexivity|]. cbn [rxEsc].
  now destruct (rxEscaped a).
Qed.

(** What [toRx] makes of a literal: the pattern of the literal with the
    flags "vy" when no character of it is the hyphen, ! < = # , or white
    space, and the SyntaxError of the constructor otherwise. *)
Lemma toRx_plain_or_refused (str : string) :
  toRx str
  = if plainLiteral str
    then Ok (regexVY (if isEmptyString str then "(?:)" else rxEsc str)
               (literal str))
    else Throw SyntaxError.
Proof.
  unfold toRx, newRegExpVY. destruct (plainLiteral str) eqn:P.
  - now rewrite (parse_rxEsc _ P), rxEsc_empty.
  - now rewrite (parse_rxEsc_refused _ P).
Qed.

Lemma visible_app (a b : string) : visible (a ++ b) = visible a && visible b.
Proof.
  unfold visible. induction a as [|ch a IH]; [reflexivity|].
  simpl. now rewrite IH, andb_assoc.
Qed.

Lemma esc_backslash (ch : ascii) :
  visible (esc "\u{" "}" ch) = true /\ String.length (esc "\u{" "}" ch) = 6.
Proof.
  destruct ch as [[] [] [] [] [] [] [] []]; vm_compute; split; reflexivity.
Qed.

Lemma string_app_length (a b : string) :
  String.length (a ++ b) = String.length a + String.length b.
Proof.
  induction a as [|ch a IH]; simpl; [reflexivity | now rewrite IH].
Qed.

Lemma strEsc_visible (s : string) : visible (strEsc s) = true.
Proof.
  unfold strEsc. induction s as [|ch s IH]; [reflexivity|]. cbn [strEscWith].
  destruct (isInvisible ch) eqn:E.
  - rewrite visible_app, IH. now rewrite (proj1 (esc_backslash ch)).
  - change (String ch (strEscWith "\u{" "}" s))
      with (String ch "" ++ strEscWith "\u{" "}" s)%string.
    rewrite visible_app, IH. unfold visible. simpl. now rewrite E.
Qed.

Lemma strEsc_fixed (s : string) : visible s = true -> strEsc s = s.
Proof.
  unfold strEsc, visible. induction s as [|ch s IH]; intro H; [reflexivity|].
  simpl in H. apply andb_prop in H. destruct H as [Hc Hs].
  apply negb_true_iff in Hc. cbn [strEscWith]. rewrite Hc. now rewrite (IH Hs).
Qed.

Lemma strEsc_length (s : string) :
  String.length (strEsc s) = String.length s + 5 * invisibles s.
Proof.
  unfold strEsc. induction s as [|ch s IH]; [reflexivity|].
  cbn [strEscWith invisibles]. destruct (isInvisible ch).
  - rewrite string_app_length, (proj2 (esc_backslash ch)), IH. simpl. lia.
  - simpl. rewrite IH. lia.
Qed.

Lemma invisibles_visible (s : string) : invisibles s = 0 -> visible s = true.
Proof.
  unfold visible. induction s as [|ch s IH]; [reflexivity|].
  cbn [invisibles]. destruct (isInvisible ch) eqn:E; [discriminate|].
  intro H. simpl. rewrite E. now apply IH.
Qed.

Lemma strEsc_fixes_visible_aux (s : string) : strEsc s = s -> visible s = true.
Proof.
  intro H. apply invisibles_visible.
  pose proof (strEsc_length s) as L. rewrite H in L. lia.
Qed.

(** What [strEsc] returns has no invisible character left, and escaping it
    again changes nothing. *)
Theorem strEsc_output_visible (s : string) :
  visible (strEsc s) = true /\ strEsc (strEsc s) = strEsc s.
Proof.
  split; [apply strEsc_visible | apply strEsc_fixed, strEsc_visible].
Qed.

(** [strEsc] grows a string by at least five characters for each invisible
    character, the escape of a character having four delimiters and two
    digits or more, and it returns the strings without invisible characters
    as they are, and no others. *)
Theorem strEsc_fixes_visible (s : string) :
  String.length s + 5 * invisibles s <= String.length (strEsc s)
  /\ (strEsc s = s <-> visible s = true).
Proof.
  split; [rewrite strEsc_length; apply Nat.le_refl|]. split.
  - apply strEsc_fixes_visible_aux.
  - apply strEsc_fixed.
Qed.


(** The backslash is not escaped, so an escape cannot be told from the same
    characters in the text: a string with an invisible character and its own
    escape, a different string, have the same result. *)
Theorem strEsc_collides (s : string) :
  visible s = false ->
  exists s', s' <> s /\ strEsc s' = strEsc s.
Proof.
  intro H. exists (strEsc s). split.
  - intro E. apply strEsc_fixes_visible_aux in E. rewrite E in H. discriminate.
  - apply strEsc_fixed, strEsc_visible.
Qed.

(** The line feed and the six characters of its escape. *)
Lemma strEsc_collides_witness :
  exists s', s' <> newline /\ strEsc s' = strEsc newline.
Proof.
  apply (strEsc_collides newline). reflexivity.
Defined.

(** ** The context ALL *)

Lemma tryRules_none (createPosQuery : string -> nat -> nat * nat) (s : string)
  (l : list Rule) (i : nat) :
  tryRules createPosQuery s l i = None ->
  Forall (fun r => tryRule createPosQuery s r i = None) l.
Proof.
  induction l as [|r l IH]; simpl; [constructor|].
  destruct (tryRule createPosQuery s r i) as [[t e]|] eqn:T; [discriminate|].
  intro H. constructor; [exact T | now apply IH].
Qed.

Lemma tryRules_twice (createPosQuery : string -> nat -> nat * nat) (s : string)
  (l : list Rule) (i : nat) :
  tryRules createPosQuery s (l ++ l) i = tryRules createPosQuery s l i.
Proof.
  destruct (tryRules createPosQuery s l i) as [[[r t] e]|] eqn:T.
  - destruct (tryRules_some _ _ _ _ _ _ _ T) as [pre [post [-> [Hpre Hr]]]].
    rewrite <- app_assoc. simpl.
    now apply (tryRules_first createPosQuery s pre _ i r t e).
  - pose proof (tryRules_none _ _ _ _ T) as F.
    now rewrite tryRules_app.
Qed.

(** In the context ALL the rules of the group ALL are in the rule sequence
    twice, as the rules of the context and as the rules of every context;
    a turn of the loop comes to what one pass over them comes to. *)
Theorem context_ALL_tries_once (createPosQuery : string -> nat -> nat * nat)
  (specs : Specs) (opt : bool) (lexer : Lexer) (s : string) (offset : nat)
  (stack : list string) :
  compileLexer specs opt = Ok lexer ->
  In "ALL" (map fst specs) ->
  getRules (compiled lexer) "ALL" = Some (ruleGroupAll (compiled lexer))
  /\ whileBody createPosQuery (compiled lexer) s offset ("ALL" :: stack)
     = match tryRules createPosQuery s (ruleGroupAll (compiled lexer)) offset with
       | Some (rule, token, e) => TurnYield token rule e
       | None => TurnAgain
       end.
Proof.
  intros Hc Hin. destruct (compileLexer_ok _ _ _ Hc) as [Hb _].
  pose proof (buildRules_compiledFrom _ _ Hb) as CF.
  assert (G : getRules (compiled lexer) "ALL"
              = Some (ruleGroupAll (compiled lexer))).
  { destruct (getRules (compiled lexer) "ALL") as [group|] eqn:G.
    - now rewrite (cf_alias _ _ CF group G).
    - exfalso. revert G. unfold buildRules in Hb.
      destruct (buildGroups specs [] []) as [built|] eqn:B; [|discriminate].
      cbv beta iota zeta delta [bind] in Hb.
      destruct (checkGroups _ _) as [[]|]; [|discriminate].
      injection Hb as <-. unfold getRules. cbn [rules].
      pose proof (buildGroups_has "ALL" _ _ _ _ B (or_introl Hin)) as L.
      destruct (lookup (rules built) "ALL"); [discriminate | contradiction]. }
  split; [exact G|].
  rewrite (whileBody_group createPosQuery _ s offset "ALL" stack _ G).
  now rewrite tryRules_twice.
Qed.

(** The specs [blankSpecs], scanned in the context ALL. *)
Lemma context_ALL_tries_once_witness :
  getRules blankRules "ALL" = Some (ruleGroupAll blankRules)
  /\ whileBody noPos blankRules " " 0 ["ALL"]
     = match tryRules noPos " " (ruleGroupAll blankRules) 0 with
       | Some (rule, token, e) => TurnYield token rule e
       | None => TurnAgain
       end.
Proof.
  apply (context_ALL_tries_once noPos blankSpecs false
           {| specs := blankSpecs; compiled := blankRules; start := "main";
              dbg := false |} " " 0 []).
  - reflexivity.
  - right. left. reflexivity.
Defined.

(** ** Line terminators and the catch-all *)

(** The greedy [.*] from the index [k]: it runs over the characters that are
    no line terminators and stops at the first line terminator, or at the
    end of the text. *)
Lemma starEnds_dot_line (s : string) :
  forall fuel k, k <= String.length s -> String.length s - k < fuel ->
  exists e l,
    starEnds (ends (RxClass isDot) s) fuel k = e :: l
    /\ k <= e
    /\ (forall j ch, k <= j < e -> charAt s j = Some ch ->
        isLineTerminator ch = false)
    /\ (e = String.length s
        \/ exists ch, charAt s e = Some ch /\ isLineTerminator ch = true).
Proof.
  induction fuel as [|fuel IH]; intros k Hk Hf; [lia|].
  cbn [starEnds ends].
  destruct (charAt s k) as [ch|] eqn:Hc.
  - pose proof (get_lt _ _ _ Hc) as Hlen.
    assert (D : isDot ch = negb (isLineTerminator ch)) by reflexivity.
    rewrite D. destruct (isLineTerminator ch) eqn:L; cbn [negb flat_map].
    + exists k, []. split; [reflexivity|]. split; [lia|].
      split; [intros j ch' Hj; lia|]. right. now exists ch.
    + replace (S k =? k) with false by (symmetry; apply Nat.eqb_neq; lia).
      destruct (IH (S k)) as [e [l [El [Hke [Hrun Hstop]]]]]; [lia | lia |].
      cbn [ends] in El. rewrite El. exists e. eexists.
      split; [reflexivity|]. split; [lia|]. split; [|exact Hstop].
      intros j ch' Hj Hcj. destruct (Nat.eq_dec j k) as [->|Hne].
      * rewrite Hc in Hcj. now injection Hcj as <-.
      * apply (Hrun j ch'); [lia | exact Hcj].
  - assert (k = String.length s).
    { destruct (Nat.eq_dec k (String.length s)) as [E|E]; [exact E|].
      destruct (get_some s k) as [ch Hch]; [lia|].
      unfold charAt in Hc. rewrite Hch in Hc. discriminate. }
    subst k. exists (String.length s), []. split; [reflexivity|].
    split; [lia|]. split; [intros j ch' Hj; lia | now left].
Qed.

(** The match of INVALID is the rest of the line: it starts at a character
    that is no line terminator, runs over such characters only, and ends at
    the first line terminator after it, or at the end of the text. *)
Theorem INVALID_takes_rest_of_line (s : string) (i : nat) (match0 : string)
  (e : nat) :
  exec (rule_rx INVALID) s i = Some (match0, e) ->
  i < e <= String.length s
  /\ match0 = slice s i e
  /\ (forall j ch, i <= j < e -> charAt s j = Some ch ->
      isLineTerminator ch = false)
  /\ (e = String.length s
      \/ exists ch, charAt s e = Some ch /\ isLineTerminator ch = true).
Proof.
  intro X. destruct (exec_some _ _ _ _ _ X) as [[_ Hes] Hm].
  unfold exec in X. simpl pattern in X.
  destruct (String.length s <? i); [discriminate|].
  unfold RxPlus in X. cbn [ends] in X.
  destruct (charAt s i) as [ch|] eqn:Hc; [|discriminate].
  pose proof (get_lt _ _ _ Hc) as Hlen.
  destruct (isDot ch) eqn:D; [|discriminate]. cbn [flat_map] in X.
  destruct (starEnds_dot_line s (S (String.length s - S i)) (S i))
    as [e' [l [El [Hie [Hrun Hstop]]]]]; [lia | lia |].
  cbn [ends] in El. rewrite El in X. simpl in X. injection X as _ <-.
  split; [lia|]. split; [exact Hm|]. split; [|exact Hstop].
  intros j ch' Hj Hcj. destruct (Nat.eq_dec j i) as [->|Hne].
  - rewrite Hc in Hcj. injection Hcj as <-. unfold isDot in D.
    now apply negb_true_iff in D.
  - apply (Hrun j ch'); [lia | exact Hcj].
Qed.

(** At offset 2 of "12 34". *)
Lemma INVALID_takes_rest_of_line_witness :
  2 < 5 <= String.length "12 34"
  /\ " 34" = slice "12 34" 2 5
  /\ (forall j ch, 2 <= j < 5 -> charAt "12 34" j = Some ch ->
      isLineTerminator ch = false)
  /\ (5 = String.length "12 34"
      \/ exists ch, charAt "12 34" 5 = Some ch /\ isLineTerminator ch = true).
Proof.
  apply (INVALID_takes_rest_of_line "12 34" 2 " 34" 5). reflexivity.
Defined.

Section HangFacts.

Variable createPosQuery : string -> nat -> nat * nat.
Variable c : Compiled.
Variable s : string.

(** A loop that is still turning after one turn is in a turn that yields
    nothing and changes nothing: no number of turns brings it further. *)
Lemma whileLoop_Running (fuel i : nat) (st : list string) :
  whileLoop createPosQuery c s (S fuel) i st = Running ->
  i < String.length s
  /\ whileBody createPosQuery c s i st = TurnAgain
  /\ forall fuel', whileLoop createPosQuery c s fuel' i st = Running.
Proof.
  intro H. cbn [whileLoop] in H.
  destruct (i <? String.length s) eqn:L; [|discriminate].
  apply Nat.ltb_lt in L.
  destruct (whileBody createPosQuery c s i st) eqn:W; try discriminate.
  split; [exact L|]. split; [reflexivity|].
  intro fuel'. induction fuel' as [|fuel' IH]; [reflexivity|].
  cbn [whileLoop]. apply Nat.ltb_lt in L. now rewrite L, W.
Qed.

(** A run in which a call of [nextToken()] does not return got, by the tokens
    it returned, to a state in which the loop is still turning. *)
Lemma tokens_Hangs : forall calls fuel i st ts,
  tokens createPosQuery c s calls fuel (atLoop i st) = (ts, Hangs) ->
  exists j st',
    Scanned createPosQuery c s i st ts j st'
    /\ whileLoop createPosQuery c s fuel j st' = Running.
Proof.
  induction calls as [|calls IH]; intros fuel i st ts H; [discriminate|].
  cbn [tokens] in H. unfold nextToken, next in H.
  cbn [atLoop gen_pc gen_offset gen_stack] in H.
  destruct (whileLoop_cases createPosQuery c s fuel i st)
    as [W|[[Hend W]|[[ctx [st0 [curr [rule [token [e [-> [Hi [Hg [Ht W]]]]]]]]]]
                    |[ctx [st0 [-> [Hi [Hg W]]]]]]]].
  - rewrite W in H. injection H as <-. exists i, st. split; [constructor | exact W].
  - rewrite W in H. unfold finalYield in H.
    destruct calls as [|calls]; [discriminate|].
    rewrite tokens_AtFinal in H. discriminate.
  - rewrite W, tokens_AtYield in H.
    destruct (tokens createPosQuery c s calls fuel
                (atLoop e (afterYield rule (ctx :: st0)))) as [rest ending] eqn:R.
    injection H as <- ->.
    destruct (IH _ _ _ _ R) as [j [st' [Hs Hw]]].
    exists j, st'. split; [|exact Hw].
    now apply (Scanned_step createPosQuery c s i ctx st0 curr rule token e).
  - rewrite W in H. destruct (inherited ctx); discriminate.
Qed.

End HangFacts.

(** A call of [nextToken()] on a compiled lexer fails to return only at a
    line terminator: when a call does not return, the tokens returned before
    it were scanned up to an offset whose character is a line terminator,
    and there no rule yields, however many turns the loop is given. *)
Theorem hangs_only_at_line_terminator
  (createPosQuery : string -> nat -> nat * nat) (specs : Specs) (opt b : bool)
  (lexer : Lexer) (s : string) (calls fuel : nat) (ts : list Token) :
  compileLexer specs opt = Ok lexer ->
  tokens createPosQuery (compiled lexer) s calls (S fuel)
    (snd (tokenizerBuilder lexer b)) = (ts, Hangs) ->
  exists j stack ch,
    Scanned createPosQuery (compiled lexer) s 0 [start lexer] ts j stack
    /\ charAt s j = Some ch
    /\ isLineTerminator ch = true
    /\ whileBody createPosQuery (compiled lexer) s j stack = TurnAgain
    /\ forall fuel',
         whileLoop createPosQuery (compiled lexer) s fuel' j stack = Running.
Proof.
  intros Hc H. destruct (compileLexer_ok _ _ _ Hc) as [Hb _].
  destruct (buildRules_compiledFrom _ _ Hb) as [[all [Eall _]] _ _ _].
  destruct (tokens_Hangs createPosQuery (compiled lexer) s calls (S fuel) 0
              [start lexer] ts H) as [j [st' [Hs Hw]]].
  destruct (whileLoop_Running _ _ _ _ _ _ Hw) as [Hj [Hturn Hall]].
  destruct (get_some s j Hj) as [ch Hch].
  exists j, st', ch. split; [exact Hs|]. split; [exact Hch|].
  split; [|split; [exact Hturn | exact Hall]].
  destruct (isLineTerminator ch) eqn:L; [reflexivity|]. exfalso.
  destruct st' as [|ctx st0]; [discriminate Hturn|].
  destruct (getRules (compiled lexer) ctx) as [curr|] eqn:G.
  - assert (Hin : In INVALID (ruleGroupAll (compiled lexer))).
    { rewrite Eall. apply in_or_app. right. now left. }
    destruct (whileBody_yields createPosQuery _ s j ch ctx st0 curr Hin G Hch L)
      as [token [rule [e [Hy _]]]].
    rewrite Hy in Hturn. discriminate.
  - rewrite (whileBody_no_group createPosQuery _ s j ctx st0 G) in Hturn.
    discriminate.
Qed.

(** The text of the digit 1 and a line feed, for the lexer of [numSpecs]. *)
Lemma hangs_only_at_line_terminator_witness :
  exists j stack ch,
    Scanned noPos numRules ("1" ++ newline) 0 ["main"]
      [makeToken noPos ("1" ++ newline) "main" "NUM" "1" 0] j stack
    /\ charAt ("1" ++ newline) j = Some ch
    /\ isLineTerminator ch = true
    /\ whileBody noPos numRules ("1" ++ newline) j stack = TurnAgain
    /\ forall fuel',
         whileLoop noPos numRules ("1" ++ newline) fuel' j stack = Running.
Proof.
  apply (hangs_only_at_line_terminator noPos numSpecs false false
           {| specs := numSpecs; compiled := numRules; start := "main";
              dbg := false |} ("1" ++ newline) 3 0).
  - reflexivity.
  - reflexivity.
Defined.

(** ** Push targets

    The check of [buildRules] lets a push target through when [rules] has
    something under its name, a group or an inherited member.  The scan is
    sound for the lexers whose push targets are groups. *)

Lemma member_defined (c : Compiled) (p : string) :
  member c p <> Undefined <-> getRules c p <> None \/ inherited p = true.
Proof.
  unfold member. destruct (getRules c p); destruct (inherited p); split;
    try (intros _; left; discriminate); try (intros _; now right);
    try discriminate.
  - intro H. now contradiction H.
  - intros [H|H]; [now contradiction H | discriminate H].
Qed.

Lemma buildRules_has (specs : Specs) (c : Compiled) (k : string) :
  buildRules specs = Ok c -> In k (map fst specs) -> getRules c k <> None.
Proof.
  unfold buildRules. intros H Hk.
  destruct (buildGroups specs [] []) as [built|] eqn:B; [|discriminate].
  cbv beta iota zeta delta [bind] in H.
  destruct (checkGroups _ _) as [[]|]; [|discriminate].
  injection H as <-. unfold getRules. cbn [rules].
  pose proof (buildGroups_has k _ _ _ _ B (or_introl Hk)) as L.
  destruct (lookup (rules built) k); [discriminate | contradiction].
Qed.

(** With push targets that are groups of the specs, what a rule of the
    compiled table pushes is a group of the table. *)
Lemma pushes_own (specs : Specs) (c : Compiled) :
  buildRules specs = Ok c -> pushesKnown specs ->
  forall r p, reachable c r -> rule_push r = Some p -> getRules c p <> None.
Proof.
  intros Hb Hk r p Hr Hp. pose proof (buildRules_compiledFrom _ _ Hb) as CF.
  destruct (reachable_origin _ _ _ CF Hr) as [->|[k [sg [sp [H1 [H2 H3]]]]]];
    [discriminate Hp|].
  apply buildRule_ok in H3. destruct H3 as [_ [_ [_ [Hpu _]]]].
  rewrite Hpu in Hp. apply (buildRules_has _ _ _ Hb).
  exact (Hk k sg sp p H1 H2 Hp).
Qed.

(** The push target constructor is no group and yet passes the check: the
    specs compile, and on "ab" the scan returns the token a, pushes
    constructor, and throws the TypeError of the spread in the next turn. *)
Lemma member_push_target :
  (exists lexer, compileLexer memberSpecs false = Ok lexer)
  /\ tokenize noPos memberSpecs "ab" 3 1
     = Ok ([makeToken noPos "ab" "main" "a" "a" 0], Failed TypeError).
Proof.
  split; [eexists|]; reflexivity.
Qed.

Lemma popSpecs_pushesKnown : pushesKnown popSpecs.
Proof.
  intros name sg sp p [H|[]] Hsp. injection H as <- <-.
  destruct Hsp as [<-|[]]. discriminate.
Qed.

Lemma litSpecs_identity : identityActions litSpecs.
Proof.
  intros name specGroup spec token [H|[]] Hs. injection H as <- <-.
  destruct Hs as [<-|[]]. reflexivity.
Qed.

Lemma litSpecs_pushesKnown : pushesKnown litSpecs.
Proof.
  intros name sg sp p [H|[]] Hsp. injection H as <- <-.
  destruct Hsp as [<-|[]]. discriminate.
Qed.

Lemma litSpecs_noPop : noPop litSpecs.
Proof.
  intros name sg sp [H|[]] Hsp. injection H as <- <-.
  destruct Hsp as [<-|[]]. reflexivity.
Qed.

(** C5, as the code has it: for a text without line terminators and a lexer
    compiled from specs whose actions return their token and whose push
    targets are groups of the specs, the calls of [nextToken()] return a
    finite run of tokens and then FINAL, and the texts of the tokens before
    FINAL, put together, are the text up to the offset of FINAL.  FINAL comes
    at the end of the text, or where the context stack has become empty; its
    offset is the length of the text, and the texts make up the whole text,
    when no spec carries POP. *)
Theorem tokens_cover_scanned_text (createPosQuery : string -> nat -> nat * nat)
  (specs : Specs) (opt : bool) (lexer : Lexer) (s : string) :
  compileLexer specs opt = Ok lexer ->
  identityActions specs ->
  pushesKnown specs ->
  lineTerminatorFree s = true ->
  exists ts j stack',
    j <= String.length s
    /\ (forall calls fuel, String.length s + 2 <= calls -> 1 <= fuel ->
        tokens createPosQuery (compiled lexer) s calls fuel
          (snd (tokenizerBuilder lexer false))
        = (ts ++ [makeToken createPosQuery s "FINAL" "FINAL" "" j], Ended))
    /\ Scanned createPosQuery (compiled lexer) s 0 [start lexer] ts j stack'
    /\ join (map tok_text ts) = slice s 0 j
    /\ (j = String.length s \/ stack' = [])
    /\ (noPop specs -> j = String.length s /\ join (map tok_text ts) = s).
Proof.
  intros Hc Hid Hknown Hfree.
  destruct (compileLexer_ok _ _ _ Hc) as [Hb [Hstart _]].
  pose proof (buildRules_compiledFrom _ _ Hb) as CF.
  pose proof (lineTerminatorFree_charAt s Hfree) as Hlt.
  assert (Hinv : In INVALID (ruleGroupAll (compiled lexer))).
  { destruct CF as [[all [Eall _]] _ _ _]. rewrite Eall.
    apply in_or_app. right. now left. }
  destruct (scan_total createPosQuery (compiled lexer) s Hinv
              (pushes_own _ _ Hb Hknown) Hlt (String.length s) 0 [start lexer])
    as [ts [j [st' [Hs [Hend [Hlen Hj]]]]]].
  { lia. }
  { constructor; [exact Hstart | constructor]. }
  assert (Hj' : j <= String.length s) by (apply Hj; lia).
  assert (Htexts : join (map tok_text ts) = slice s 0 j).
  { apply (Scanned_texts createPosQuery (compiled lexer) s 0 [start lexer] ts j st');
      [|exact Hs].
    intros r Hr t. destruct (reachable_origin _ _ _ CF Hr) as [->|[k [sg [sp [H1 [H2 H3]]]]]].
    - reflexivity.
    - apply buildRule_ok in H3. destruct H3 as [_ [_ [_ [_ [Ha _]]]]].
      rewrite Ha. exact (Hid k sg sp t H1 H2). }
  exists ts, j, st'. split; [exact Hj'|].
  split; [|split; [exact Hs|split; [exact Htexts|split]]].
  - intros calls fuel Hcalls Hfuel.
    apply (Scanned_tokens createPosQuery (compiled lexer) s 0 [start lexer] ts j st'
             Hs Hend calls fuel); lia.
  - destruct Hend as [Hle|He]; [left; lia | now right].
  - intro Hnp.
    assert (Hfull : st' <> [] \/ String.length s <= j).
    { apply (Scanned_stack createPosQuery (compiled lexer) s 0 [start lexer] ts j st'
               Hlt); [|exact Hs | left; discriminate].
      intros r Hr Hp.
      destruct (reachable_origin _ _ _ CF Hr) as [->|[k [sg [sp [H1 [H2 H3]]]]]];
        [reflexivity|].
      apply buildRule_ok in H3. destruct H3 as [_ [_ [Hpop _]]].
      rewrite Hpop, (Hnp k sg sp H1 H2) in Hp. discriminate. }
    assert (j = String.length s).
    { destruct Hfull as [Hne|Hle]; [|lia].
      destruct Hend as [Hle|He]; [lia | contradiction]. }
    subst j. split; [reflexivity|]. rewrite Htexts. apply slice_all.
Qed.

(** The text "ab": for the specs main: a, with POP, and for the specs
    main: a, which carry no POP and whose tokens make up the whole text. *)
Lemma tokens_cover_scanned_text_witness :
  (exists ts j stack',
     j <= String.length "ab"
     /\ (forall calls fuel, String.length "ab" + 2 <= calls -> 1 <= fuel ->
         tokens noPos (compiled popLexer) "ab" calls fuel
           (snd (tokenizerBuilder popLexer false))
         = (ts ++ [makeToken noPos "ab" "FINAL" "FINAL" "" j], Ended))
     /\ Scanned noPos (compiled popLexer) "ab" 0 [start popLexer] ts j stack'
     /\ join (map tok_text ts) = slice "ab" 0 j
     /\ (j = String.length "ab" \/ stack' = [])
     /\ (noPop popSpecs ->
         j = String.length "ab" /\ join (map tok_text ts) = "ab"))
  /\ (exists ts,
        (forall calls fuel, String.length "ab" + 2 <= calls -> 1 <= fuel ->
         tokens noPos (compiled litLexer) "ab" calls fuel
           (snd (tokenizerBuilder litLexer false))
         = (ts ++ [makeToken noPos "ab" "FINAL" "FINAL" "" 2], Ended))
        /\ join (map tok_text ts) = "ab").
Proof.
  split.
  - apply (tokens_cover_scanned_text noPos popSpecs false popLexer "ab").
    + reflexivity.
    + exact popSpecs_identity.
    + exact popSpecs_pushesKnown.
    + reflexivity.
  - destruct (tokens_cover_scanned_text noPos litSpecs false litLexer "ab"
                eq_refl litSpecs_identity litSpecs_pushesKnown eq_refl)
      as [ts [j [st [_ [Hrun [_ [_ [_ Hnp]]]]]]]].
    destruct (Hnp litSpecs_noPop) as [Hj Htexts].
    exists ts. split; [|exact Htexts].
    intros calls fuel Hcalls Hfuel. rewrite (Hrun calls fuel Hcalls Hfuel).
    now rewrite Hj.
Defined.

(** On a text without line terminators the scan of a compiled lexer whose
    push targets are groups of the specs ends: [nextToken()] returns at most
    as many tokens as the text has characters, then FINAL, and then throws
    LexEndedError. *)
Theorem scan_terminates (createPosQuery : string -> nat -> nat * nat)
  (specs : Specs) (opt : bool) (lexer : Lexer) (s : string) :
  compileLexer specs opt = Ok lexer ->
  pushesKnown specs ->
  lineTerminatorFree s = true ->
  exists ts j,
    length ts <= String.length s /\ j <= String.length s
    /\ forall calls fuel, String.length s + 2 <= calls -> 1 <= fuel ->
       tokens createPosQuery (compiled lexer) s calls fuel
         (snd (tokenizerBuilder lexer false))
       = (ts ++ [FINAL createPosQuery s j], Ended).
Proof.
  intros Hc Hknown Hfree.
  destruct (compileLexer_ok _ _ _ Hc) as [Hb [Hstart _]].
  pose proof (buildRules_compiledFrom _ _ Hb) as CF.
  assert (Hinv : In INVALID (ruleGroupAll (compiled lexer))).
  { destruct CF as [[all [Eall _]] _ _ _]. rewrite Eall.
    apply in_or_app. right. now left. }
  destruct (scan_total createPosQuery (compiled lexer) s Hinv
              (pushes_own _ _ Hb Hknown)
              (lineTerminatorFree_charAt s Hfree) (String.length s) 0
              [start lexer])
    as [ts [j [st' [Hs [Hend [Hlen Hj]]]]]].
  { lia. }
  { constructor; [exact Hstart | constructor]. }
  exists ts, j. split; [exact Hlen|]. split; [apply Hj; lia|].
  intros calls fuel Hcalls Hfuel.
  apply (Scanned_tokens createPosQuery (compiled lexer) s 0 [start lexer] ts j st'
           Hs Hend calls fuel); lia.
Qed.

(** The text "12 34" and the lexer of [numSpecs]. *)
Lemma scan_terminates_witness :
  exists ts j,
    length ts <= String.length "12 34" /\ j <= String.length "12 34"
    /\ forall calls fuel, String.length "12 34" + 2 <= calls -> 1 <= fuel ->
       tokens noPos numRules "12 34" calls fuel
         (snd (tokenizerBuilder
                 {| specs := numSpecs; compiled := numRules; start := "main";
                    dbg := false |} false))
       = (ts ++ [FINAL noPos "12 34" j], Ended).
Proof.
  apply (scan_terminates noPos numSpecs false
           {| specs := numSpecs; compiled := numRules; start := "main";
              dbg := false |} "12 34").
  - reflexivity.
  - exact numSpecs_pushesKnown.
  - reflexivity.
Defined.

(** A lexer compiled from specs whose push targets are groups of the specs
    throws neither InternalError nor TypeError: a run of [nextToken()] calls
    ends in LexEndedError, or a call does not return, or the calls run
    out. *)
Theorem compiled_never_faults (createPosQuery : string -> nat -> nat * nat)
  (specs : Specs) (opt b : bool) (lexer : Lexer) (s : string) (calls fuel : nat)
  (ts : list Token) (ending : Ending) :
  compileLexer specs opt = Ok lexer ->
  pushesKnown specs ->
  tokens createPosQuery (compiled lexer) s calls fuel
    (snd (tokenizerBuilder lexer b)) = (ts, ending) ->
  ending = Ended \/ ending = Hangs \/ ending = More.
Proof.
  intros Hc Hknown H. destruct (compileLexer_ok _ _ _ Hc) as [Hb [Hstart _]].
  destruct ending as [|fault| |]; auto.
  exfalso.
  apply (tokens_no_fault createPosQuery (compiled lexer) s
           (pushes_own _ _ Hb Hknown) calls fuel 0 [start lexer] ts fault);
    [|exact H].
  constructor; [exact Hstart | constructor].
Qed.

(** The text of one line feed and the lexer of [numSpecs]: the call does not
    return. *)
Lemma compiled_never_faults_witness :
  Hangs = Ended \/ Hangs = Hangs \/ Hangs = More.
Proof.
  apply (compiled_never_faults noPos numSpecs false false
           {| specs := numSpecs; compiled := numRules; start := "main";
              dbg := false |} newline 3 4 []).
  - reflexivity.
  - exact numSpecs_pushesKnown.
  - reflexivity.
Defined.

(** What [compileLexer] accepts: for specs with distinct group names, none
    of them __proto__, it returns a lexer when the table is not empty, every
    spec compiles to a rule, and every push target is a group of the table or
    the name of an inherited member, and only then. *)
Theorem compileLexer_accepts_iff (specs : Specs) (opt : bool) :
  NoDup (map fst specs) ->
  ~ In "__proto__" (map fst specs) ->
  ((exists lexer, compileLexer specs opt = Ok lexer)
   <-> specs <> [] /\ buildable specs /\ pushesDefined specs).
Proof.
  intros Hnd _. split.
  - intros [lexer Hc]. destruct (compileLexer_ok _ _ _ Hc) as [Hb _].
    pose proof (buildRules_compiledFrom _ _ Hb) as CF.
    split; [|split].
    + intros ->. discriminate Hc.
    + unfold buildRules in Hb.
      destruct (buildGroups specs [] []) as [built|] eqn:B; [|discriminate].
      exact (buildGroups_ok_inv _ _ _ _ B).
    + intros name sg sp p Hin Hsp Hp.
      destruct (spec_rule_reachable _ _ _ _ _ Hb Hnd Hin Hsp) as [r [Hbr Hr]].
      apply buildRule_ok in Hbr. destruct Hbr as [_ [_ [_ [Hpush _]]]].
      rewrite <- Hpush in Hp.
      destruct (proj1 (member_defined _ _) (cf_push _ _ CF r p Hr Hp)) as [Hg|Hi].
      * left. exact (buildRules_keys _ _ _ Hb Hg).
      * now right.
  - intros [Hne [Hbuild Hpush]].
    destruct (buildGroups_ok specs [] [] Hbuild) as [built B].
    pose proof (buildGroups_inv specs specs [] [] built (incl_refl _)
                  (tableInv_nil specs) B) as Inv.
    unfold compileLexer, buildRules. rewrite B. cbv beta iota zeta delta [bind].
    rewrite checkGroups_complete.
    + cbn [rules]. destruct (rules built) as [|[k g] rs] eqn:R.
      * destruct specs as [|[name sg] rest]; [contradiction|].
        exfalso. apply (buildGroups_has name _ _ _ _ B); [left; now left|].
        now rewrite R.
      * eexists. reflexivity.
    + cbn [rules ruleGroupAll]. intros k g r p Hin Hr Hp.
      destruct (table_rule_origin _ _ _ _ _ Inv Hin Hr)
        as [->|[sg [sp [H1 [H2 H3]]]]]; [discriminate Hp|].
      apply buildRule_ok in H3. destruct H3 as [_ [_ [_ [Hpu _]]]].
      rewrite Hpu in Hp. apply member_defined.
      destruct (Hpush k sg sp p H1 H2 Hp) as [Hk|Hi]; [left | now right].
      unfold getRules. cbn [rules].
      pose proof (buildGroups_has p _ _ _ _ B (or_introl Hk)) as L.
      destruct (lookup (rules built) p); [discriminate | contradiction].
Qed.

(** The specs [memberSpecs], whose push target is the inherited member
    constructor. *)
Lemma compileLexer_accepts_iff_witness :
  (exists lexer, compileLexer memberSpecs false = Ok lexer)
  <-> memberSpecs <> [] /\ buildable memberSpecs /\ pushesDefined memberSpecs.
Proof.
  apply (compileLexer_accepts_iff memberSpecs false).
  - repeat constructor. intros [].
  - intros [H|[]]. discriminate H.
Defined.

(** ** What compileLexer accepts *)

Lemma mapM_throw {A B : Type} (f : A -> Result B) (l : list A) (e : Error) :
  mapM f l = Throw e -> exists a, In a l /\ f a = Throw e.
Proof.
  induction l as [|a l IH]; simpl; [discriminate|].
  destruct (f a) as [b|e'] eqn:F; simpl.
  - destruct (mapM f l) as [bs|e'] eqn:M; simpl; [discriminate|].
    intro H. injection H as <-. destruct (IH eq_refl) as [a' [Ha' Hf]].
    exists a'. split; [now right | exact Hf].
  - intro H. injection H as <-. exists a. split; [now left | exact F].
Qed.

Lemma buildGroups_throw : forall entries rs all e,
  buildGroups entries rs all = Throw e ->
  exists name specGroup spec,
    In (name, specGroup) entries /\ In spec specGroup
    /\ buildRule spec name = Throw e.
Proof.
  induction entries as [|[n sg] entries IH]; intros rs all e H; simpl in H;
    [discriminate|].
  destruct (mapM (fun spec => buildRule spec n) sg) as [bs|e'] eqn:M.
  - cbv beta iota zeta delta [bind] in H.
    assert (T : exists rs' all', buildGroups entries rs' all' = Throw e).
    { destruct (String.eqb n "ALL"); eexists; eexists; exact H. }
    destruct T as [rs' [all' T]].
    destruct (IH _ _ _ T) as [name [g [sp [H1 [H2 H3]]]]].
    exists name, g, sp. split; [now right | now split].
  - cbv beta iota zeta delta [bind] in H. injection H as <-.
    destruct (mapM_throw _ _ _ M) as [sp [Hsp Hf]].
    exists n, sg, sp. split; [now left | now split].
Qed.

(** What [buildRule] throws: the LexError of the flags, or what [toRx] threw
    for the literal. *)
Lemma buildRule_throw (spec : Spec) (group : string) (e : Error) :
  buildRule spec group = Throw e ->
  (exists message, e = LexError message)
  \/ (asRx (at_ spec 1) = None /\ toRx (spec0 spec) = Throw e).
Proof.
  unfold buildRule. destruct (asRx (at_ spec 1)) as [rx|].
  - cbv beta iota zeta delta [bind].
    destruct (endsWith (toString rx) "/vy"); [discriminate|].
    intro H. injection H as <-. left. eexists. reflexivity.
  - destruct (toRx (spec0 spec)) as [rx|e'].
    + cbv beta iota zeta delta [bind].
      destruct (endsWith (toString rx) "/vy"); [discriminate|].
      intro H. injection H as <-. left. eexists. reflexivity.
    + cbv beta iota zeta delta [bind]. intro H. injection H as <-.
      right. now split.
Qed.

(** With plain literals whatever [compileLexer] throws is a LexError. *)
Lemma compileLexer_throws_LexError (specs : Specs) (opt : bool) (e : Error) :
  plainSpecs specs -> compileLexer specs opt = Throw e ->
  exists message, e = LexError message.
Proof.
  intros Hplain H. destruct (buildGroups specs [] []) as [built|e'] eqn:B.
  - exact (compileLexer_error specs opt built e B H).
  - unfold compileLexer, buildRules in H. rewrite B in H.
    cbv beta iota zeta delta [bind] in H. injection H as <-.
    destruct (buildGroups_throw _ _ _ _ B) as [name [sg [sp [H1 [H2 H3]]]]].
    destruct (buildRule_throw sp name e' H3) as [Hm|[Hrx Ht]]; [exact Hm|].
    rewrite toRx_plain_or_refused, (Hplain name sg sp H1 H2 Hrx) in Ht.
    discriminate Ht.
Qed.

(** C8, as the code has it.  [compileLexer] throws LexError for an empty spec
    table.  A lexer it returns has a non-empty table, patterns with the flags
    "vy" only, and, no group being named __proto__, push targets that are
    groups of its table unless they name an inherited member.  It returns no
    lexer for specs with a RegExp whose flags are not "vy", to the letter,
    sticky or not, nor for specs with distinct group names, none of them
    __proto__, and a push target that is neither a group nor the name of an
    inherited member; and with plain literals, those with no character among
    the hyphen, ! < = # , and white space, what it throws is a LexError.  [buildRule] accepts a RegExp when its flags are "vy" and
    throws the LexError of the flags otherwise; it compiles a plain literal
    to the pattern of source [rxEsc] of it, (?:) for the empty literal, and
    flags "vy", which matches at an index where the literal stands, and
    nothing else. *)
Theorem compile_accepts (specs : Specs) (opt : bool) :
  compileLexer [] opt = Throw (LexError "empty spec")
  /\ (forall lexer, compileLexer specs opt = Ok lexer ->
      specs <> []
      /\ (forall rule, reachable (compiled lexer) rule ->
          flags (rule_rx rule) = "vy")
      /\ (~ In "__proto__" (map fst specs) ->
          forall rule p, reachable (compiled lexer) rule ->
          rule_push rule = Some p -> inherited p = false ->
          getRules (compiled lexer) p <> None))
  /\ (forall name specGroup spec rx,
      In (name, specGroup) specs -> In spec specGroup ->
      asRx (at_ spec 1) = Some rx -> flags rx <> "vy" ->
      exists e, compileLexer specs opt = Throw e)
  /\ (NoDup (map fst specs) -> ~ In "__proto__" (map fst specs) ->
      forall name specGroup spec p,
      In (name, specGroup) specs -> In spec specGroup ->
      specPush spec = Some p -> ~ In p (map fst specs) -> inherited p = false ->
      exists e, compileLexer specs opt = Throw e)
  /\ (plainSpecs specs ->
      forall e, compileLexer specs opt = Throw e ->
      exists message, e = LexError message)
  /\ (forall spec group rx, asRx (at_ spec 1) = Some rx ->
      buildRule spec group
      = if String.eqb (flags rx) "vy"
        then Ok {| rule_name := spec0 spec; rule_rx := rx;
                   rule_action := specAction (Some spec); rule_group := group;
                   rule_push := specPush spec; rule_pop := specPop spec |}
        else Throw (LexError ("invald regex flags for "
                              ++ id group (spec0 spec))))
  /\ (forall spec group,
      asRx (at_ spec 1) = None -> plainLiteral (spec0 spec) = true ->
      exists rule,
        buildRule spec group = Ok rule
        /\ source (rule_rx rule)
           = (if isEmptyString (spec0 spec) then "(?:)"
              else rxEsc (spec0 spec))
        /\ flags (rule_rx rule) = "vy"
        /\ forall s i m e,
             exec (rule_rx rule) s i = Some (m, e)
             <-> i <= String.length s /\ m = spec0 spec
                 /\ e = i + String.length (spec0 spec)
                 /\ String.substring i (String.length (spec0 spec)) s
                    = spec0 spec).
Proof.
  split; [reflexivity|]. split; [|split; [|split; [|split; [|split]]]].
  - intros lexer Hc. destruct (compileLexer_ok _ _ _ Hc) as [Hb _].
    pose proof (buildRules_compiledFrom _ _ Hb) as CF.
    split; [|split].
    + intros ->. discriminate Hc.
    + intros rule Hr.
      destruct (reachable_origin _ _ _ CF Hr) as [->|[k [sg [sp [_ [_ H]]]]]];
        [reflexivity|].
      now apply buildRule_ok in H.
    + intros _ rule p Hr Hp Hi.
      destruct (proj1 (member_defined _ _) (cf_push _ _ CF rule p Hr Hp))
        as [Hg|Hi']; [exact Hg|].
      rewrite Hi in Hi'. discriminate Hi'.
  - intros name sg spec rx Hin Hsp Hrx Hfl.
    destruct (compileLexer specs opt) as [lexer|e] eqn:Hc; [|now exists e].
    exfalso. destruct (compileLexer_ok _ _ _ Hc) as [Hb _].
    unfold buildRules in Hb.
    destruct (buildGroups specs [] []) as [built|] eqn:B; [|discriminate].
    destruct (buildGroups_ok_inv _ _ _ _ B name sg spec Hin Hsp) as [r Hr].
    rewrite (buildRule_regexp spec name rx Hrx) in Hr.
    destruct (String.eqb (flags rx) "vy") eqn:E; [|discriminate].
    apply String.eqb_eq in E. contradiction.
  - intros Hnd _ name sg spec p Hin Hsp Hp Hnot Hi.
    destruct (compileLexer specs opt) as [lexer|e] eqn:Hc; [|now exists e].
    exfalso. destruct (compileLexer_ok _ _ _ Hc) as [Hb _].
    pose proof (buildRules_compiledFrom _ _ Hb) as CF.
    destruct (spec_rule_reachable _ _ _ _ _ Hb Hnd Hin Hsp) as [r [Hbr Hr]].
    apply buildRule_ok in Hbr. destruct Hbr as [_ [_ [_ [Hpush _]]]].
    rewrite <- Hpush in Hp.
    destruct (proj1 (member_defined _ _) (cf_push _ _ CF r p Hr Hp)) as [Hg|Hi'].
    + exact (Hnot (buildRules_keys _ _ _ Hb Hg)).
    + rewrite Hi in Hi'. discriminate Hi'.
  - intros Hplain e. now apply compileLexer_throws_LexError.
  - apply buildRule_regexp.
  - intros spec group Hrx Hp. eexists.
    split; [exact (buildRule_literal spec group Hrx Hp)|].
    split; [reflexivity|]. split; [reflexivity|].
    intros s i m e. apply literal_exec.
Qed.

Lemma stickySpecs_plain :
  plainSpecs [("main", [RegExpSpec "NUM" digitsY None])].
Proof.
  intros name sg sp [H|[]] Hsp. injection H as <- <-.
  destruct Hsp as [<-|[]]. discriminate.
Qed.

Lemma strSpecs_plain : plainSpecs [("main", [StringPushSpec "a" "str" None])].
Proof.
  intros name sg sp [H|[]] Hsp. injection H as <- <-.
  destruct Hsp as [<-|[]]. reflexivity.
Qed.

(** The lexer of [numSpecs], the pattern of the digits with the flag y
    alone, the push target str of main: a, and the literal "a.b" in the
    group main. *)
Lemma compile_accepts_witness :
  (numSpecs <> [] /\ flags (rule_rx WS) = "vy")
  /\ (exists message,
        compileLexer [("main", [RegExpSpec "NUM" digitsY None])] false
        = Throw (LexError message))
  /\ (exists message,
        compileLexer [("main", [StringPushSpec "a" "str" None])] false
        = Throw (LexError message))
  /\ exists rule,
       buildRule (StringSpec "a.b" None) "main" = Ok rule
       /\ source (rule_rx rule) = rxEsc "a.b"
       /\ forall s i m e,
            exec (rule_rx rule) s i = Some (m, e)
            <-> i <= String.length s /\ m = "a.b" /\ e = i + 3
                /\ String.substring i 3 s = "a.b".
Proof.
  split; [|split; [|split]].
  - destruct (compile_accepts numSpecs false) as [_ [H2 _]].
    destruct (H2 _ (numSpecs_compiled false)) as [Hne [Hfl _]].
    split; [exact Hne|]. apply Hfl. right. exists "main", [NUM; WS].
    split; [reflexivity | right; left; reflexivity].
  - destruct (compile_accepts [("main", [RegExpSpec "NUM" digitsY None])] false)
      as [_ [_ [H3 [_ [H5 _]]]]].
    destruct (H3 "main" [RegExpSpec "NUM" digitsY None]
                (RegExpSpec "NUM" digitsY None) digitsY
                (or_introl eq_refl) (or_introl eq_refl) eq_refl)
      as [e He]; [discriminate|].
    destruct (H5 stickySpecs_plain e He) as [message ->].
    now exists message.
  - destruct (compile_accepts [("main", [StringPushSpec "a" "str" None])] false)
      as [_ [_ [_ [H4 [H5 _]]]]].
    assert (Hnd : NoDup (map fst [("main", [StringPushSpec "a" "str" None])])).
    { repeat constructor. intros []. }
    assert (Hnp : ~ In "__proto__"
                    (map fst [("main", [StringPushSpec "a" "str" None])])).
    { intros [H|[]]. discriminate H. }
    destruct (H4 Hnd Hnp "main" [StringPushSpec "a" "str" None]
                (StringPushSpec "a" "str" None) "str"
                (or_introl eq_refl) (or_introl eq_refl) eq_refl)
      as [e He].
    + intros [H|[]]. discriminate H.
    + reflexivity.
    + destruct (H5 strSpecs_plain e He) as [message ->].
      now exists message.
  - destruct (compile_accepts numSpecs false) as [_ [_ [_ [_ [_ [_ H7]]]]]].
    destruct (H7 (StringSpec "a.b" None) "main" eq_refl eq_refl)
      as [rule [Hb [Hs [_ Hx]]]].
    exists rule. split; [exact Hb|]. split; [exact Hs | exact Hx].
Defined.
